(** * AdapterLibrary: a shallow embedding of [lib/processing.h]

    The header defines a pipeline library: flows (anything with [begin()] and
    [end()]), lazy views ([Split], [Filter], [Transform]) whose iterators wrap
    the iterators of the flow below them, and eager adapters ([Join],
    [AggregateByKey], [SplitExpected], [Write], [AsVector]) that run a
    range-for over their input.

    Templates become definitions that are generic over type classes; iterator
    classes become records with the fields of the C++ class and one function
    per member function. *)

From Stdlib Require Import Ascii.
From stdpp Require Import gmap strings list pretty.

Set Default Proof Using "Type".

(** ** Data model *)

(** [template <typename Key, typename Value> struct KV] *)
Record KV (Key Value : Type) := mkKV { key : Key; value : Value }.
Arguments mkKV {_ _} _ _.
Arguments key {_ _} _.
Arguments value {_ _} _.

(** [template <typename Base, typename Joined> struct JoinResult] *)
Record JoinResult (Base Joined : Type) :=
  mkJoinResult { base : Base; joined : option Joined }.
Arguments mkJoinResult {_ _} _ _.
Arguments base {_ _} _.
Arguments joined {_ _} _.

(** [std::expected<T, E>]: exactly one of a value or an error. *)
Inductive expected (T E : Type) :=
  | has_value_ (v : T)
  | unexpected (e : E).
Arguments has_value_ {_ _} _.
Arguments unexpected {_ _} _.

(** ** Iterators and flows *)

(** What the library asks of an iterator: [operator*], [operator++] and
    [operator!=].  Dereferencing is undefined at some positions (the end of a
    container); [deref] answers [None] there. *)
Class Iterator (It A : Type) := {
  deref : It → option A;
  incr : It → It;
  neq : It → It → bool;
}.
Global Hint Mode Iterator ! - : typeclass_instances.

(** A flow: [begin()] and [end()]. *)
Class Flow (F It A : Type) `{!Iterator It A} := {
  flow_begin : F → It;
  flow_end : F → It;
}.
Global Hint Mode Flow ! - - - : typeclass_instances.

(** The range-for statement [for (auto&& elem : prev) result.push_back(elem)]:
    [it != end], then [*it], then [++it].  The loop of a lazy view need not
    terminate, hence the fuel; [None] is "out of fuel" or an undefined
    dereference. *)
Fixpoint drain {It A} `{!Iterator It A}
    (fuel : nat) (cur e : It) (result : list A) : option (list A) :=
  match fuel with
  | O => None
  | S fuel' =>
      if neq cur e then
        match deref cur with
        | Some elem => drain fuel' (incr cur) e (result ++ [elem])
        | None => None
        end
      else Some result
  end.

(** [AsVectorAdapter::operator()] *)
Definition AsVector {F It A} `{!Iterator It A, !Flow F It A}
    (fuel : nat) (prev : F) : option (list A) :=
  drain fuel (flow_begin prev) (flow_end prev) [].

(** [traverses cur e l]: stepping [cur] until it compares equal to [e] visits
    exactly the elements [l]. *)
Inductive traverses {It A} `{!Iterator It A} : It → It → list A → Prop :=
  | traverses_end cur e :
      neq cur e = false → traverses cur e []
  | traverses_step cur e x l :
      neq cur e = true → deref cur = Some x →
      traverses (incr cur) e l → traverses cur e (x :: l).

(** Iterators over a finite range: [distance cur e] bounds the number of
    increments that take [cur] to [e] (as [std::distance] counts them), and an
    iterator never differs from itself. *)
Class BoundedIterator (It A : Type) `{!Iterator It A} := {
  distance : It → It → nat;
  neq_irrefl : ∀ it : It, neq it it = false;
  distance_bound : ∀ (cur e : It) (l : list A),
    traverses cur e l → length l ≤ distance cur e;
}.
Global Hint Mode BoundedIterator ! - - : typeclass_instances.

(** *** Containers: [DataFlowSource] and [DataFlow] *)

(** A [std::vector<A>::iterator]: a position in a vector. *)
Module VectorIterator.

Record t (A : Type) := mk { vec : list A; idx : nat }.
Arguments mk {_} _ _.
Arguments vec {_} _.
Arguments idx {_} _.

#[global] Instance iterator A : Iterator (t A) A := {|
  deref it := vec it !! idx it;
  incr it := mk (vec it) (S (idx it));
  neq a b := negb (idx a =? idx b);
|}.

End VectorIterator.

(** [template <typename Container> class DataFlowSource] *)
Record DataFlowSource (A : Type) := mkDataFlowSource { container_ : list A }.
Arguments mkDataFlowSource {_} _.
Arguments container_ {_} _.

#[global] Instance DataFlowSource_flow A :
    Flow (DataFlowSource A) (VectorIterator.t A) A := {|
  flow_begin s := VectorIterator.mk (container_ s) 0;
  flow_end s := VectorIterator.mk (container_ s) (length (container_ s));
|}.

(** [template <typename Flow> class DataFlow] *)
Record DataFlow (F : Type) := mkDataFlow { flow_ : F }.
Arguments mkDataFlow {_} _.
Arguments flow_ {_} _.

#[global] Instance DataFlow_flow F It A `{!Iterator It A, !Flow F It A} :
    Flow (DataFlow F) It A := {|
  flow_begin d := flow_begin (flow_ d);
  flow_end d := flow_end (flow_ d);
|}.

(** [AsDataFlow(container)], for containers that are not vectors of
    [std::stringstream]. *)
Definition AsDataFlow {A} (container : list A) : DataFlow (DataFlowSource A) :=
  mkDataFlow (mkDataFlowSource container).

(** The vector a container-backed flow owns. *)
Definition elements {A} (d : DataFlow (DataFlowSource A)) : list A :=
  container_ (flow_ d).

(** *** [Transform] *)

Module TransformedFlow.

(** [TransformedFlow::Iterator] *)
Module Iterator.

Record t (It A B : Type) := mk { it_ : It; func_ : A → B }.
Arguments mk {_ _ _} _ _.
Arguments it_ {_ _ _} _.
Arguments func_ {_ _ _} _.

#[global] Instance iterator It A B `{!Iterator It A} :
    Iterator (t It A B) B := {|
  deref it := func_ it <$> deref (it_ it);
  incr it := mk (incr (it_ it)) (func_ it);
  neq a b := neq (it_ a) (it_ b);
|}.

End Iterator.

Record t (Prev A B : Type) := mk { prev_ : Prev; func_ : A → B }.
Arguments mk {_ _ _} _ _.
Arguments prev_ {_ _ _} _.
Arguments func_ {_ _ _} _.

#[global] Instance flow Prev It A B `{!Iterator It A, !Flow Prev It A} :
    Flow (t Prev A B) (Iterator.t It A B) B := {|
  flow_begin f := Iterator.mk (flow_begin (prev_ f)) (func_ f);
  flow_end f := Iterator.mk (flow_end (prev_ f)) (func_ f);
|}.

End TransformedFlow.

(** [TransformAdapter::operator()], reached through [prev | Transform(func)]. *)
Definition Transform {Prev A B} (func : A → B) (prev : Prev) :
    TransformedFlow.t Prev A B :=
  TransformedFlow.mk prev func.

(** *** [Filter] *)

Module FilteredFlow.

(** [FilteredFlow::Iterator] *)
Module Iterator.

Record t (It A : Type) :=
  mk { current_ : It; end_ : It; predicate_ : A → bool }.
Arguments mk {_ _} _ _ _.
Arguments current_ {_ _} _.
Arguments end_ {_ _} _.
Arguments predicate_ {_ _} _.

Section members.
Context {It A : Type} `{!Iterator It A, !BoundedIterator It A}.

(** The loop of [skip_unmatched]:
    [while (current_ != end_ && !predicate_( *current_)) ++current_;].
    Over a bounded upstream it runs at most [distance current_ end_] times,
    which is the fuel [skip_unmatched] gives it. *)
Fixpoint skip_loop (fuel : nat) (predicate : A → bool) (current e : It) : It :=
  match fuel with
  | O => current
  | S fuel' =>
      if neq current e then
        match deref current with
        | Some x =>
            if predicate x then current
            else skip_loop fuel' predicate (incr current) e
        | None => current
        end
      else current
  end.

Definition skip_unmatched (it : t It A) : t It A :=
  mk (skip_loop (distance (current_ it) (end_ it))
        (predicate_ it) (current_ it) (end_ it))
     (end_ it) (predicate_ it).

(** The constructor [Iterator(current, end, predicate)]. *)
Definition make (current e : It) (predicate : A → bool) : t It A :=
  skip_unmatched (mk current e predicate).

#[global] Instance iterator : Iterator (t It A) A := {|
  deref it := deref (current_ it);
  incr it := skip_unmatched (mk (incr (current_ it)) (end_ it) (predicate_ it));
  neq a b := neq (current_ a) (current_ b);
|}.

End members.
End Iterator.

Record t (Prev A : Type) := mk { prev_ : Prev; predicate_ : A → bool }.
Arguments mk {_ _} _ _.
Arguments prev_ {_ _} _.
Arguments predicate_ {_ _} _.

#[global] Instance flow Prev It A
    `{!Iterator It A, !BoundedIterator It A, !Flow Prev It A} :
    Flow (t Prev A) (Iterator.t It A) A := {|
  flow_begin f :=
    Iterator.make (flow_begin (prev_ f)) (flow_end (prev_ f)) (predicate_ f);
  flow_end f :=
    Iterator.make (flow_end (prev_ f)) (flow_end (prev_ f)) (predicate_ f);
|}.

End FilteredFlow.

(** [FilterAdapter::operator()], reached through [prev | Filter(predicate)]. *)
Definition Filter {Prev A} (predicate : A → bool) (prev : Prev) :
    FilteredFlow.t Prev A :=
  FilteredFlow.mk prev predicate.

(** *** [std::string] *)

Module StdString.

(** [std::string::npos], the largest [size_t]. *)
Definition npos : N := 2 ^ 64 - 1.

Definition size (s : string) : N := N.of_nat (String.length s).

(** Is [c] one of the characters of [chars]? *)
Fixpoint contains (chars : string) (c : ascii) : bool :=
  match chars with
  | EmptyString => false
  | String d chars' => if Ascii.eqb c d then true else contains chars' c
  end.

(** The characters of [s] from position [pos] on. *)
Fixpoint tail_from (pos : nat) (s : string) : string :=
  match pos, s with
  | O, _ => s
  | S pos', EmptyString => EmptyString
  | S pos', String _ s' => tail_from pos' s'
  end.

(** Scan [s], whose first character sits at position [i]. *)
Fixpoint scan_first_of (chars s : string) (i : N) : N :=
  match s with
  | EmptyString => npos
  | String c s' =>
      if contains chars c then i else scan_first_of chars s' (N.succ i)
  end.

(** [s.find_first_of(chars, pos)]: the first position at or after [pos]
    holding one of [chars], [npos] when there is none. *)
Definition find_first_of (s chars : string) (pos : N) : N :=
  scan_first_of chars (tail_from (N.to_nat pos) s) pos.

(** [s.substr(pos, n)], the characters at [pos, pos + min(n, size() - pos));
    [n = npos] is [s.substr(pos)].  The call throws for [pos > size()], which
    [next_token] never asks for. *)
Definition substr (s : string) (pos n : N) : string :=
  String.substring (N.to_nat pos) (N.to_nat (N.min n (size s - pos))) s.

End StdString.

(** *** [Split] *)

Module SplitFlow.

(** [SplitFlow::Iterator] *)
Module Iterator.

Record t (It : Type) := mk {
  current_ : It;
  end_ : It;
  delimiters_ : string;
  current_token_ : string;
  current_content_ : string;
  current_pos_ : N;
}.
Arguments mk {_} _ _ _ _ _ _.
Arguments current_ {_} _.
Arguments end_ {_} _.
Arguments delimiters_ {_} _.
Arguments current_token_ {_} _.
Arguments current_content_ {_} _.
Arguments current_pos_ {_} _.

Section members.
Context {It : Type} `{!Iterator It string}.

(** The last statements of [next_token]: cut the token that starts at
    [current_pos_]. *)
Definition cut_token (it : t It) : t It :=
  let end_pos :=
    StdString.find_first_of
      (current_content_ it) (delimiters_ it) (current_pos_ it) in
  if (end_pos =? StdString.npos)%N then
    mk (current_ it) (end_ it) (delimiters_ it)
       (StdString.substr (current_content_ it) (current_pos_ it) StdString.npos)
       (current_content_ it) StdString.npos
  else
    mk (current_ it) (end_ it) (delimiters_ it)
       (StdString.substr (current_content_ it) (current_pos_ it)
          (end_pos - current_pos_ it))
       (current_content_ it) ((end_pos + 1) mod 2 ^ 64)%N.

(** [void next_token()] *)
Definition next_token (it : t It) : t It :=
  let it :=
    mk (current_ it) (end_ it) (delimiters_ it)
       EmptyString (current_content_ it) (current_pos_ it) in
  if negb (neq (current_ it) (end_ it)) then it
  else if (current_pos_ it =? StdString.npos)%N then
    let current := incr (current_ it) in
    if neq current (end_ it) then
      cut_token
        (mk current (end_ it) (delimiters_ it) (current_token_ it)
           (default (current_content_ it) (deref current)) 0%N)
    else
      mk current (end_ it) (delimiters_ it)
         (current_token_ it) (current_content_ it) (current_pos_ it)
  else cut_token it.

(** The constructor [Iterator(current, end, delimiters)]. *)
Definition make (current e : It) (delimiters : string) : t It :=
  if neq current e then
    next_token
      (mk current e delimiters EmptyString
         (default EmptyString (deref current)) 0%N)
  else mk current e delimiters EmptyString EmptyString 0%N.

#[global] Instance iterator : Iterator (t It) string := {|
  deref it := Some (current_token_ it);
  incr it := next_token it;
  neq a b :=
    negb (negb (neq (current_ a) (current_ b))
          && (current_pos_ a =? StdString.npos)%N);
|}.

End members.
End Iterator.

Record t (Prev : Type) := mk { prev_ : Prev; delimiters_ : string }.
Arguments mk {_} _ _.
Arguments prev_ {_} _.
Arguments delimiters_ {_} _.

#[global] Instance flow Prev It `{!Iterator It string, !Flow Prev It string} :
    Flow (t Prev) (Iterator.t It) string := {|
  flow_begin f :=
    Iterator.make (flow_begin (prev_ f)) (flow_end (prev_ f)) (delimiters_ f);
  flow_end f :=
    Iterator.make (flow_end (prev_ f)) (flow_end (prev_ f)) (delimiters_ f);
|}.

End SplitFlow.

(** [SplitAdapter::operator()], reached through [prev | Split(delimiters)]. *)
Definition Split {Prev} (delimiters : string) (prev : Prev) : SplitFlow.t Prev :=
  SplitFlow.mk prev delimiters.

(** ** Eager adapters

    Each of them runs range-for loops over its input; [prev], [left] and
    [right_] below are the elements such a loop visits, in order.  Results
    that the source wraps with [AsDataFlow] are wrapped here too. *)

(** *** [Write] *)

(** [os << elem]: the characters the stream inserter of [A] writes. *)
Class Insertable (A : Type) := inserted : A → string.
Global Hint Mode Insertable ! : typeclass_instances.

(** [int] is written in decimal. *)
#[global] Instance Z_insertable : Insertable Z := pretty.
#[global] Instance string_insertable : Insertable string := id.

(** [WriteAdapter::operator()]: the stream [os_] is the text written to it so
    far; the adapter hands [prev] back. *)
Definition WriteAdapter {A} `{!Insertable A}
    (os_ : string) (delimiter_ : ascii) (prev : list A) : string * list A :=
  let '(os, first, hasElements) :=
    fold_left
      (λ '(os, first, hasElements) elem,
         let os := if negb first then os +:+ String delimiter_ EmptyString else os in
         let os := os +:+ inserted elem in
         (os, false, true))
      prev (os_, true, false) in
  let os := if hasElements then os +:+ String delimiter_ EmptyString else os in
  (os, prev).

(** *** [SplitExpected] *)

(** [SplitExpectedBaseAdapter::operator()] *)
Definition SplitExpectedBaseAdapter {T E} (prev : list (expected T E)) :
    DataFlow (DataFlowSource E) * DataFlow (DataFlowSource T) :=
  let '(good_results, bad_results) :=
    fold_left
      (λ '(good_results, bad_results) value,
         match value with
         | has_value_ v => (good_results ++ [v], bad_results)
         | unexpected e => (good_results, bad_results ++ [e])
         end)
      prev ([], []) in
  (AsDataFlow bad_results, AsDataFlow good_results).

Module SplitExpectedTransformAdapter.

Record t (Func : Type) := mk { func_ : Func }.
Arguments mk {_} _.
Arguments func_ {_} _.

Definition split_existing_expected {T E} (prev : list (expected T E)) :
    DataFlow (DataFlowSource E) * DataFlow (DataFlowSource T) :=
  let '(errors, values) :=
    fold_left
      (λ '(errors, values) elem,
         match elem with
         | has_value_ v => (errors, values ++ [v])
         | unexpected e => (errors ++ [e], values)
         end)
      prev ([], []) in
  (AsDataFlow errors, AsDataFlow values).

Definition apply_and_split {A T E} (func : A → expected T E) (prev : list A) :
    DataFlow (DataFlowSource E) * DataFlow (DataFlowSource T) :=
  let '(errors, values) :=
    fold_left
      (λ '(errors, values) elem,
         match func elem with
         | has_value_ v => (errors, values ++ [v])
         | unexpected e => (errors ++ [e], values)
         end)
      prev ([], []) in
  (AsDataFlow errors, AsDataFlow values).

(** What [if constexpr (detail::IsExpectedV<ValueType>)] decides from the
    types alone.  [Func] is the type of the stored function, [A] the element
    type of the input, [T] and [E] the payload types of the result.  The
    second case is for element types that are not an [expected]; only there
    must [Func] accept the elements. *)
Inductive value_type : Type → Type → Type → Type → Type :=
  | is_expected {Func T E} : value_type Func (expected T E) T E
  | is_not_expected {A T E} : value_type (A → expected T E) A T E.

(** [SplitExpectedTransformAdapter::operator()] *)
Definition call {Func A T E} (vt : value_type Func A T E)
    (adapter : t Func) (prev : list A) :
    DataFlow (DataFlowSource E) * DataFlow (DataFlowSource T) :=
  match vt in value_type Func A T E
        return t Func → list A →
               DataFlow (DataFlowSource E) * DataFlow (DataFlowSource T) with
  | is_expected => λ _ prev, split_existing_expected prev
  | is_not_expected => λ adapter prev, apply_and_split (func_ adapter) prev
  end adapter prev.

End SplitExpectedTransformAdapter.

(** [SplitExpected(func)] *)
Definition SplitExpected {Func} (func : Func) :
    SplitExpectedTransformAdapter.t Func :=
  SplitExpectedTransformAdapter.mk func.

(** [SplitExpected()]: the adapter around the generic lambda that hands its
    argument back. *)
Definition SplitExpected0 : SplitExpectedTransformAdapter.t (∀ X : Type, X → X) :=
  SplitExpectedTransformAdapter.mk (λ (X : Type) (x : X), x).

(** *** [AggregateByKey] *)

(** Value-initialisation, which [operator[]] of a map performs for a key it
    does not hold yet. *)
Class ValueInit (V : Type) := value_init : V.
Global Hint Mode ValueInit ! : typeclass_instances.

#[global] Instance nat_value_init : ValueInit nat := 0.
#[global] Instance N_value_init : ValueInit N := 0%N.
#[global] Instance Z_value_init : ValueInit Z := 0%Z.

(** [m[k]] on a [std::unordered_map]: the mapped value and the map, which
    gains [k] when it was absent. *)
Definition subscript {K V} `{Countable K, !ValueInit V}
    (m : gmap K V) (k : K) : V * gmap K V :=
  match m !! k with
  | Some v => (v, m)
  | None => (value_init, <[k:=value_init]> m)
  end.

Module AggregateByKeyAdapter.

Record t (InitialValue Aggregator KeySelector : Type) := mk {
  initial_value_ : InitialValue;
  aggregator_ : Aggregator;
  key_selector_ : KeySelector;
}.
Arguments mk {_ _ _} _ _ _.
Arguments initial_value_ {_ _ _} _.
Arguments aggregator_ {_ _ _} _.
Arguments key_selector_ {_ _ _} _.

(** The aggregator updates the accumulator it gets by reference; here it
    returns the updated accumulator. *)
Section branches.
Context {Acc : Type} `{!ValueInit Acc}.

(** The branch for [ValueType = std::string]. *)
Definition aggregate_strings {KeySelector}
    (adapter : t Acc (Acc → string → Acc) KeySelector) (prev : list string) :
    DataFlow (DataFlowSource (string * Acc)) :=
  let aggregated_map : gmap string Acc :=
    fold_left
      (λ m value, <[value:=initial_value_ adapter]> (subscript m value).2)
      prev ∅ in
  let aggregated_map :=
    fold_left
      (λ m value,
         let '(acc, m) := subscript m value in
         <[value:=aggregator_ adapter acc value]> m)
      prev aggregated_map in
  let '(result, _, _) :=
    fold_left
      (λ '(result, processed_keys, m) value,
         if decide (value ∈ processed_keys) then (result, processed_keys, m)
         else
           let '(acc, m) := subscript m value in
           (result ++ [(value, acc)], {[value]} ∪ processed_keys, m))
      prev ([], (∅ : gset string), aggregated_map) in
  AsDataFlow result.

(** The branch for every other [ValueType]. *)
Definition aggregate_by_selector {A K} `{Countable K}
    (adapter : t Acc (Acc → A → Acc) (A → K)) (prev : list A) :
    DataFlow (DataFlowSource (K * Acc)) :=
  let aggregated_map : gmap K Acc :=
    fold_left
      (λ m value,
         let key := key_selector_ adapter value in
         let m :=
           match m !! key with
           | None => <[key:=initial_value_ adapter]> (subscript m key).2
           | Some _ => m
           end in
         let '(acc, m) := subscript m key in
         <[key:=aggregator_ adapter acc value]> m)
      prev ∅ in
  let '(result, _, _) :=
    fold_left
      (λ '(result, processed_keys, m) value,
         let key := key_selector_ adapter value in
         if decide (key ∈ processed_keys) then (result, processed_keys, m)
         else
           let '(acc, m) := subscript m key in
           (result ++ [(key, acc)], {[key]} ∪ processed_keys, m))
      prev ([], (∅ : gset K), aggregated_map) in
  AsDataFlow result.

End branches.

(** What [if constexpr (std::is_same_v<ValueType, std::string>)] decides.
    [A] is the element type, [K] the result type of the key selector, [RK]
    the key type of the result.  The second case is for element types other
    than [std::string]; only there must [K] hash and compare. *)
Inductive value_type : Type → Type → Type → Type :=
  | is_string {K} : value_type string K string
  | is_not_string {A K} `{Countable K} : value_type A K K.

(** [AggregateByKeyAdapter::operator()] *)
Definition call {Acc A K RK} `{!ValueInit Acc} (vt : value_type A K RK)
    (adapter : t Acc (Acc → A → Acc) (A → K)) (prev : list A) :
    DataFlow (DataFlowSource (RK * Acc)) :=
  match vt in value_type A K RK
        return t Acc (Acc → A → Acc) (A → K) → list A →
               DataFlow (DataFlowSource (RK * Acc)) with
  | is_string => λ adapter prev, aggregate_strings adapter prev
  | is_not_string => λ adapter prev, aggregate_by_selector adapter prev
  end adapter prev.

End AggregateByKeyAdapter.

(** [AggregateByKey(initial_value, aggregator, key_selector)] *)
Definition AggregateByKey {InitialValue Aggregator KeySelector}
    (initial_value : InitialValue) (aggregator : Aggregator)
    (key_selector : KeySelector) :
    AggregateByKeyAdapter.t InitialValue Aggregator KeySelector :=
  AggregateByKeyAdapter.mk initial_value aggregator key_selector.

(** *** [Join] *)

(** [std::unordered_multimap<K, V>], as far as [Join] uses it: [emplace] and
    [equal_range].  The container promises that [equal_range k] holds exactly
    the values emplaced under [k]; it does not say in which order it
    enumerates them, and implementations differ (two of them follow). *)
Class UnorderedMultimap (K V : Type) `{EqDecision K} := {
  multimap : Type;
  multimap_empty : multimap;
  emplace : K → V → multimap → multimap;
  equal_range : K → multimap → list V;
  equal_range_empty : ∀ k, equal_range k multimap_empty = [];
  equal_range_emplace : ∀ k k' v m,
    equal_range k (emplace k' v m) ≡ₚ
      (if decide (k = k') then [v] else []) ++ equal_range k m;
}.
Global Hint Mode UnorderedMultimap ! ! - : typeclass_instances.
Arguments multimap _ _ {_ _}.

(** The state a move construction leaves its source in.  [std::forward<T>]
    with a non-reference [T] is [std::move]. *)
Class Movable (A : Type) := moved_from : A → A.
Global Hint Mode Movable ! : typeclass_instances.

(** Scalars are copied. *)
#[global] Instance Z_movable : Movable Z := id.
#[global] Instance N_movable : Movable N := id.
#[global] Instance nat_movable : Movable nat := id.

(** A moved-from [std::string] is left empty by libstdc++, libc++ and the
    MSVC library (the standard only asks for a valid state). *)
#[global] Instance string_movable : Movable string := λ _, EmptyString.

#[global] Instance KV_movable {Key Value} `{!Movable Key, !Movable Value} :
    Movable (KV Key Value) :=
  λ kv, mkKV (moved_from (key kv)) (moved_from (value kv)).

Module JoinAdapter.

Record t (RightFlow LeftKeySelector RightKeySelector : Type) := mk {
  right_ : RightFlow;
  left_key_ : LeftKeySelector;
  right_key_ : RightKeySelector;
}.
Arguments mk {_ _ _} _ _ _.
Arguments right_ {_ _ _} _.
Arguments left_key_ {_ _ _} _.
Arguments right_key_ {_ _ _} _.

Section call.
Context {L R K : Type} `{EqDecision K} {M : UnorderedMultimap K R} `{!Movable L}.

(** The inner loop,
    [for (it = range.first; it != range.second; ++it)
       result.push_back(ResultType{std::forward<LeftValue>(left_value), it->second})]:
    every turn move-constructs [base] from [left_value]. *)
Fixpoint emit_matches (left_value : L) (range : list R)
    (result : list (JoinResult L R)) : L * list (JoinResult L R) :=
  match range with
  | [] => (left_value, result)
  | it :: range' =>
      emit_matches (moved_from left_value) range'
        (result ++ [mkJoinResult left_value (Some it)])
  end.

(** The body of the loop over [left]. *)
Definition join_one (adapter : t (list R) (L → K) (R → K))
    (right_map : multimap K R) (result : list (JoinResult L R))
    (left_value : L) :
    list (JoinResult L R) :=
  let left_key := left_key_ adapter left_value in
  let range := equal_range left_key right_map in
  match range with
  | [] => result ++ [mkJoinResult left_value None]
  | _ :: _ => (emit_matches left_value range result).2
  end.

Definition build_right_map (adapter : t (list R) (L → K) (R → K)) :
    multimap K R :=
  fold_left
    (λ right_map right_value,
       emplace (right_key_ adapter right_value) right_value right_map)
    (right_ adapter) multimap_empty.

(** [JoinAdapter::operator()] *)
Definition call (adapter : t (list R) (L → K) (R → K)) (left : list L) :
    DataFlow (DataFlowSource (JoinResult L R)) :=
  let right_map := build_right_map adapter in
  AsDataFlow (fold_left (join_one adapter right_map) left []).

End call.
End JoinAdapter.

Module SimpleJoinAdapter.

Record t (RightFlow : Type) := mk { right_ : RightFlow }.
Arguments mk {_} _.
Arguments right_ {_} _.

Section call.
Context {K LV RV : Type} `{EqDecision K} {M : UnorderedMultimap K RV}.

Definition join_one (right_map : multimap K RV)
    (result : list (JoinResult LV RV)) (left_value : KV K LV) :
    list (JoinResult LV RV) :=
  let range := equal_range (key left_value) right_map in
  match range with
  | [] => result ++ [mkJoinResult (value left_value) None]
  | _ :: _ =>
      fold_left
        (λ result it, result ++ [mkJoinResult (value left_value) (Some it)])
        range result
  end.

Definition build_right_map (adapter : t (list (KV K RV))) : multimap K RV :=
  fold_left
    (λ right_map right_value,
       emplace (key right_value) (value right_value) right_map)
    (right_ adapter) multimap_empty.

(** [SimpleJoinAdapter::operator()] *)
Definition call (adapter : t (list (KV K RV))) (left : list (KV K LV)) :
    DataFlow (DataFlowSource (JoinResult LV RV)) :=
  let right_map := build_right_map adapter in
  AsDataFlow (fold_left (join_one right_map) left []).

End call.
End SimpleJoinAdapter.

(** [Join(right)] and [Join(right, left_key, right_key)] *)
Definition Join {RightFlow} (right : RightFlow) : SimpleJoinAdapter.t RightFlow :=
  SimpleJoinAdapter.mk right.

Definition JoinBy {RightFlow LeftKeySelector RightKeySelector}
    (right : RightFlow) (left_key : LeftKeySelector)
    (right_key : RightKeySelector) :
    JoinAdapter.t RightFlow LeftKeySelector RightKeySelector :=
  JoinAdapter.mk right left_key right_key.

(** The element types of [tests/join_ut.cpp]. *)
Module Student.
Record t := mk { group_id : N; name : string }.
End Student.

Module Group.
Record t := mk { id : N; name : string }.
End Group.

(** The implicit move constructor of [Student] moves member by member. *)
#[global] Instance Student_movable : Movable Student.t :=
  λ s, Student.mk (moved_from (Student.group_id s)) (moved_from (Student.name s)).

(** Two multimaps.  Both keep their entries in a chain, and [equal_range k]
    visits the entries of key [k] in chain order. *)
Definition chain_equal_range {K V} `{EqDecision K} (k : K)
    (chain : list (K * V)) : list V :=
  (filter (λ entry, entry.1 = k) chain).*2.

(** libstdc++ links a new node in front of the first node with an equivalent
    key ([_M_insert_multi_node] without a hint, which is how [emplace] calls
    it for keys with a fast hash, the integers among them): equivalent keys
    are enumerated newest first. *)
Definition emplace_newest_first {K V} (k : K) (v : V)
    (chain : list (K * V)) : list (K * V) :=
  (k, v) :: chain.

(** libc++ ([__node_insert_multi]) links a new node behind the last node with
    an equivalent key: equivalent keys are enumerated oldest first. *)
Definition emplace_oldest_first {K V} (k : K) (v : V)
    (chain : list (K * V)) : list (K * V) :=
  chain ++ [(k, v)].

(** ** The rest of the header *)

(** [operator|(prev, adapter)]: the adapter applied to what precedes it. *)
Definition pipe {Prev Result} (prev : Prev) (adapter : Prev → Result) : Result :=
  adapter prev.

(** *** [DataFlow::to_vector] and [DataFlow::operator==] *)

(** [to_vector()]: the vector built from the range [begin(), end())]. *)
Definition to_vector {F It A} `{!Iterator It A, !Flow F It A}
    (fuel : nat) (d : DataFlow F) : option (list A) :=
  drain fuel (flow_begin d) (flow_end d) [].

(** [operator==(other)]: [to_vector() == other]. *)
Definition DataFlow_eq {F It A} `{!Iterator It A, !Flow F It A, !EqDecision A}
    (fuel : nat) (d : DataFlow F) (other : list A) : option bool :=
  (λ v, bool_decide (v = other)) <$> to_vector fuel d.

(** *** [AsDataFlow] over string streams *)

(** A [std::stringstream], as far as the header reads it: [str()] is the text
    written to it. *)
Record stringstream := mkStringstream { str : string }.

(** The branch of [AsDataFlow] for containers whose [value_type] is
    [std::stringstream]: the flow over the contents of the streams. *)
Definition AsDataFlow_stringstream (container : list stringstream) :
    DataFlow (DataFlowSource string) :=
  let contents :=
    fold_left (λ contents ss, contents ++ [str ss]) container [] in
  mkDataFlow (mkDataFlowSource contents).

(** *** [Out] *)

(** [OutAdapter::operator()]: every element, then a line feed; the adapter
    hands [prev] back. *)
Definition OutAdapter {A} `{!Insertable A} (os_ : string) (prev : list A) :
    string * list A :=
  (fold_left
     (λ os elem, (os +:+ inserted elem) +:+ String "010"%char EmptyString)
     prev os_,
   prev).

(** *** [DropNullopt] *)

(** What [opt.value()] gives: the value an optional holds, or the exception
    [std::bad_optional_access] it throws when it holds none. *)
Inductive value_or_throw (T : Type) :=
  | returns (v : T)
  | throws_bad_optional_access.
Arguments returns {_} _.
Arguments throws_bad_optional_access {_}.

(** [opt.has_value()] and [opt.value()] *)
Definition optional_has_value {T} (opt : option T) : bool :=
  match opt with Some _ => true | None => false end.

Definition optional_value {T} (opt : option T) : value_or_throw T :=
  match opt with Some v => returns v | None => throws_bad_optional_access end.

(** [DropNulloptAdapter::operator()]:
    [prev | Filter(has_value) | Transform(value)]. *)
Definition DropNulloptAdapter {Prev T} (prev : Prev) :
    TransformedFlow.t (FilteredFlow.t Prev (option T)) (option T)
      (value_or_throw T) :=
  pipe (pipe prev (Filter optional_has_value)) (Transform optional_value).

(** *** [Filter] over any flow

    [skip_unmatched] loops for as long as [current_ != end_] holds and the
    predicate fails.  Above, over a bounded flow, the distance to the end
    bounds the loop; over any other flow nothing does, and the loop gets its
    fuel from outside: [None] is "out of fuel", or a dereference that is
    undefined. *)
Module FilteredFlowFuel.
Section members.
Context {It A : Type} `{!Iterator It A}.

(** [void skip_unmatched()] *)
Fixpoint skip_unmatched (fuel : nat) (it : FilteredFlow.Iterator.t It A) :
    option (FilteredFlow.Iterator.t It A) :=
  match fuel with
  | O => None
  | S fuel' =>
      if neq (FilteredFlow.Iterator.current_ it) (FilteredFlow.Iterator.end_ it)
      then
        match deref (FilteredFlow.Iterator.current_ it) with
        | Some x =>
            if FilteredFlow.Iterator.predicate_ it x then Some it
            else
              skip_unmatched fuel'
                (FilteredFlow.Iterator.mk
                   (incr (FilteredFlow.Iterator.current_ it))
                   (FilteredFlow.Iterator.end_ it)
                   (FilteredFlow.Iterator.predicate_ it))
        | None => None
        end
      else Some it
  end.

(** The constructor [Iterator(current, end, predicate)]. *)
Definition make (fuel : nat) (current e : It) (predicate : A → bool) :
    option (FilteredFlow.Iterator.t It A) :=
  skip_unmatched fuel (FilteredFlow.Iterator.mk current e predicate).

(** [FilteredFlow::begin()] and [FilteredFlow::end()] *)
Definition flow_begin {Prev} `{!Flow Prev It A} (fuel : nat)
    (f : FilteredFlow.t Prev A) : option (FilteredFlow.Iterator.t It A) :=
  make fuel (flow_begin (FilteredFlow.prev_ f)) (flow_end (FilteredFlow.prev_ f))
    (FilteredFlow.predicate_ f).

Definition flow_end {Prev} `{!Flow Prev It A} (fuel : nat)
    (f : FilteredFlow.t Prev A) : option (FilteredFlow.Iterator.t It A) :=
  make fuel (flow_end (FilteredFlow.prev_ f)) (flow_end (FilteredFlow.prev_ f))
    (FilteredFlow.predicate_ f).

(** The range-for of [AsVectorAdapter] over a [FilteredFlow]:
    [for (; it != end; ++it) result.push_back( *it )], with
    [FilteredFlow::Iterator]'s [operator!=], [operator*] and [operator++];
    [fuel] bounds the turns of this loop and of every [skip_unmatched]. *)
Fixpoint drain (fuel : nat) (it e : FilteredFlow.Iterator.t It A)
    (result : list A) : option (list A) :=
  match fuel with
  | O => None
  | S fuel' =>
      if neq (FilteredFlow.Iterator.current_ it)
             (FilteredFlow.Iterator.current_ e)
      then
        match deref (FilteredFlow.Iterator.current_ it) with
        | Some x =>
            match
              skip_unmatched (S fuel')
                (FilteredFlow.Iterator.mk
                   (incr (FilteredFlow.Iterator.current_ it))
                   (FilteredFlow.Iterator.end_ it)
                   (FilteredFlow.Iterator.predicate_ it))
            with
            | Some it' => drain fuel' it' e (result ++ [x])
            | None => None
            end
        | None => None
        end
      else Some result
  end.

(** [prev | Filter(predicate) | AsVector()] *)
Definition AsVector {Prev} `{!Flow Prev It A} (fuel : nat)
    (f : FilteredFlow.t Prev A) : option (list A) :=
  match flow_begin fuel f, flow_end fuel f with
  | Some b, Some e => drain fuel b e []
  | _, _ => None
  end.

End members.
End FilteredFlowFuel.
(** * Specifications

    What the claims say, stated without the iterators and loops of the code:
    the definitions the theorems below compare the code with. *)

(** [materialises prev l]: with enough fuel, [AsVector] drains [prev] to [l]. *)
Definition materialises {F It A} `{!Iterator It A, !Flow F It A}
    (prev : F) (l : list A) : Prop :=
  ∃ fuel, AsVector fuel prev = Some l.

(** ** [Split] *)

(** What splitting should give, stated on the text alone: [first_field] cuts
    a text at its first delimiter, [fields] lists the substrings between the
    delimiters of a chunk. *)
Fixpoint first_field (delims s : string) : string * option string :=
  match s with
  | EmptyString => (EmptyString, None)
  | String c s' =>
      if StdString.contains delims c then (EmptyString, Some s')
      else (String c (first_field delims s').1, (first_field delims s').2)
  end.

Fixpoint fields (delims s : string) : list string :=
  match s with
  | EmptyString => [EmptyString]
  | String c s' =>
      if StdString.contains delims c then EmptyString :: fields delims s'
      else match fields delims s' with
           | t :: ts => String c t :: ts
           | [] => [String c EmptyString]
           end
  end.

(** The number of delimiter characters of a text. *)
Fixpoint count_delimiters (delims s : string) : nat :=
  match s with
  | EmptyString => 0
  | String c s' =>
      (if StdString.contains delims c then 1 else 0) + count_delimiters delims s'
  end.

(** A text a [std::string] can hold: shorter than [npos]. *)
Definition fits_size_t (s : string) : Prop :=
  (StdString.size s < StdString.npos)%N.

(** ** [Write] *)

(** The text of a sequence in which every element is followed by the
    separator. *)
Fixpoint each_followed_by {A} `{!Insertable A} (delimiter : ascii)
    (l : list A) : string :=
  match l with
  | [] => EmptyString
  | elem :: l' =>
      inserted elem +:+ String delimiter (each_followed_by delimiter l')
  end.

(** ** [SplitExpected] *)

(** The error payloads, and the success payloads, of a sequence of results,
    in order. *)
Definition errors_of {T E} (l : list (expected T E)) : list E :=
  omap (λ x, match x with unexpected e => Some e | has_value_ _ => None end) l.

Definition values_of {T E} (l : list (expected T E)) : list T :=
  omap (λ x, match x with has_value_ v => Some v | unexpected _ => None end) l.

(** Put errors and values back in the places [shape] tells
    ([true]: a value). *)
Fixpoint interleave {T E} (shape : list bool) (errors : list E)
    (values : list T) : list (expected T E) :=
  match shape, errors, values with
  | true :: shape', _, v :: values' =>
      has_value_ v :: interleave shape' errors values'
  | false :: shape', e :: errors', _ =>
      unexpected e :: interleave shape' errors' values
  | _, _, _ => []
  end.

Definition has_value {T E} (x : expected T E) : bool :=
  match x with has_value_ _ => true | unexpected _ => false end.

(** ** [AggregateByKey] *)

(** The distinct elements of a list, in the order of their first
    occurrence. *)
Fixpoint first_occurrences {K} `{EqDecision K} (l : list K) : list K :=
  match l with
  | [] => []
  | k :: l' => k :: filter (λ k', k' ≠ k) (first_occurrences l')
  end.

(** What the claim asks of the pairs [out] emitted for the input [prev] with
    keys [key]: the emitted keys are the keys of the input, each once, in the
    order of their first occurrence (the keys emitted before [k] are the keys
    that occur before the first [k]), and every key comes with the fold of
    the aggregator over the elements of that key. *)
Definition grouping_law {A K Acc} `{EqDecision K} (key : A → K)
    (initial_value : Acc) (aggregator : Acc → A → Acc)
    (prev : list A) (out : list (K * Acc)) : Prop :=
  (∀ k, k ∈ out.*1 ↔ k ∈ key <$> prev) ∧
  NoDup out.*1 ∧
  out.*1 = first_occurrences (key <$> prev) ∧
  (∀ ks1 k ks2,
     out.*1 = ks1 ++ k :: ks2 →
     ∃ l1 l2, key <$> prev = l1 ++ k :: l2 ∧ (k ∉ l1) ∧
              ∀ k', k' ∈ ks1 ↔ k' ∈ l1) ∧
  (∀ k acc,
     (k, acc) ∈ out →
     acc = fold_left aggregator (filter (λ v, key v = k) prev) initial_value).

(** ** [Join] *)

(** The right elements whose key is the key of a left element, in the order
    of the right side. *)
Definition matches {L R K} `{EqDecision K}
    (adapter : JoinAdapter.t (list R) (L → K) (R → K)) (l : L) : list R :=
  filter
    (λ r, JoinAdapter.right_key_ adapter r = JoinAdapter.left_key_ adapter l)
    (JoinAdapter.right_ adapter).

(** The rows [JoinAdapter] emits for one left element. *)
Definition rows_for {L R K} `{EqDecision K} {M : UnorderedMultimap K R}
    `{!Movable L} (adapter : JoinAdapter.t (list R) (L → K) (R → K)) (l : L) :
    list (JoinResult L R) :=
  JoinAdapter.join_one adapter (JoinAdapter.build_right_map adapter) [] l.

(** The values of the right pairs whose key is the key of a left pair, in the
    order of the right side. *)
Definition paired_matches {K LV RV} `{EqDecision K}
    (adapter : SimpleJoinAdapter.t (list (KV K RV))) (l : KV K LV) : list RV :=
  value <$> filter (λ r, key r = key l) (SimpleJoinAdapter.right_ adapter).

(** The rows [SimpleJoinAdapter] emits for one left pair. *)
Definition paired_rows_for {K LV RV} `{EqDecision K}
    {M : UnorderedMultimap K RV}
    (adapter : SimpleJoinAdapter.t (list (KV K RV))) (l : KV K LV) :
    list (JoinResult LV RV) :=
  SimpleJoinAdapter.join_one (SimpleJoinAdapter.build_right_map adapter) [] l.

(** The order the claim asks of one container: the rows of every left element
    with two or more matches carry its matches in the order of the right
    side. *)
Definition joins_in_right_order {L R K} `{EqDecision K} `{!Movable L}
    (M : UnorderedMultimap K R)
    (adapter : JoinAdapter.t (list R) (L → K) (R → K)) (left : list L) : Prop :=
  ∀ l, l ∈ left →
       2 ≤ length (matches adapter l) →
       omap joined (rows_for (M := M) adapter l) = matches adapter l.

(** ** Notions used by the further properties *)

(** A chunk in which every delimiter is replaced by [d]. *)
Fixpoint replace_delimiters (delims : string) (d : ascii) (s : string) :
    string :=
  match s with
  | EmptyString => EmptyString
  | String c s' =>
      String (if StdString.contains delims c then d else c)
        (replace_delimiters delims d s')
  end.

(** The position of a [Split] iterator is [npos] or lies within its chunk:
    what [next_token] passes to [substr] then never exceeds [size()], the
    case in which [substr] throws [std::out_of_range]. *)
Definition position_in_range {It} (it : SplitFlow.Iterator.t It) : Prop :=
  SplitFlow.Iterator.current_pos_ it = StdString.npos ∨
  (SplitFlow.Iterator.current_pos_ it ≤
   StdString.size (SplitFlow.Iterator.current_content_ it))%N.

(** What every state of a [Split] traversal over [chunks] keeps: the
    upstream iterator walks [chunks], the current chunk fits [size_t], the
    position is in range. *)
Definition split_state_ok (chunks : list string)
    (it : SplitFlow.Iterator.t (VectorIterator.t string)) : Prop :=
  VectorIterator.vec (SplitFlow.Iterator.current_ it) = chunks ∧
  fits_size_t (SplitFlow.Iterator.current_content_ it) ∧
  position_in_range it.

(** Where [skip_unmatched] stops: nothing is left, or an element the
    predicate accepts comes first. *)
Definition settled {A} (p : A → bool) (l : list A) : Prop :=
  match l with [] => True | x :: _ => p x = true end.

(** * Properties of the lazy views *)

(** ** The range-for loop *)

Section drain.
Context {It A : Type} `{!Iterator It A}.

Lemma drain_traverses (cur e : It) (l : list A) :
  traverses cur e l →
  ∀ fuel result, length l < fuel → drain fuel cur e result = Some (result ++ l).
Proof.
  induction 1 as [cur e Hne | cur e x l Hne Hx _ IH]; intros [|fuel] result Hf;
    simpl in *; try lia; rewrite Hne.
  - by rewrite app_nil_r.
  - rewrite Hx, IH by lia. by rewrite <- app_assoc.
Qed.

Lemma traverses_drain (fuel : nat) :
  ∀ (cur e : It) (result r : list A),
    drain fuel cur e result = Some r →
    ∃ l, r = result ++ l ∧ traverses cur e l ∧ length l < fuel.
Proof.
  induction fuel as [|fuel IH]; intros cur e result r; simpl; [done|].
  destruct (neq cur e) eqn:Hne.
  - destruct (deref cur) as [x|] eqn:Hx; [|done].
    intros (l & -> & Hl & Hlen)%IH. exists (x :: l).
    rewrite <- app_assoc. split_and!; [done| |simpl; lia].
    by apply traverses_step.
  - intros [= <-]. exists []. rewrite app_nil_r.
    split_and!; [done| |simpl; lia]. by apply traverses_end.
Qed.

(** A traversal visits one sequence of elements only. *)
Lemma traverses_inj (cur e : It) (l1 l2 : list A) :
  traverses cur e l1 → traverses cur e l2 → l1 = l2.
Proof.
  intros H1. revert l2.
  induction H1 as [cur e Hne | cur e x l Hne Hx _ IH]; intros l2 H2;
    inversion H2; subst; try congruence.
  f_equal; [congruence|]. by apply IH.
Qed.

End drain.

Lemma AsVector_traverses {F It A} `{!Iterator It A, !Flow F It A}
    (prev : F) (fuel : nat) (l : list A) :
  AsVector fuel prev = Some l ↔
  traverses (flow_begin prev) (flow_end prev) l ∧ length l < fuel.
Proof.
  unfold AsVector. split.
  - intros (l' & -> & ? & ?)%traverses_drain. done.
  - intros [Hl Hlen]. by rewrite (drain_traverses _ _ _ Hl).
Qed.

(** More fuel never changes what a flow materialises to. *)
Lemma AsVector_fuel_mono {F It A} `{!Iterator It A, !Flow F It A}
    (prev : F) (fuel fuel' : nat) (l : list A) :
  AsVector fuel prev = Some l → fuel ≤ fuel' → AsVector fuel' prev = Some l.
Proof.
  rewrite !AsVector_traverses. intros [? ?] ?. split; [done|lia].
Qed.

(** ** Vectors *)

Lemma vector_traverses_drop {A} (v : list A) (i : nat) :
  i ≤ length v →
  traverses (VectorIterator.mk v i) (VectorIterator.mk v (length v)) (drop i v).
Proof.
  intros Hi. remember (length v - i) as n eqn:Hn.
  revert i Hi Hn. induction n as [|n IH]; intros i Hi Hn.
  - assert (i = length v) as -> by lia. rewrite drop_all.
    apply traverses_end. simpl. by rewrite Nat.eqb_refl.
  - destruct (lookup_lt_is_Some_2 v i) as [x Hx]; [lia|].
    rewrite (drop_S _ _ _ Hx). apply traverses_step; simpl; [|done|].
    + apply negb_true_iff, Nat.eqb_neq. lia.
    + apply IH; lia.
Qed.

Lemma vector_traverses_length {A} (cur e : VectorIterator.t A) (l : list A) :
  traverses cur e l →
  VectorIterator.idx cur + length l = VectorIterator.idx e.
Proof.
  induction 1 as [cur e Hne | cur e x l Hne Hx _ IH]; simpl in *.
  - apply negb_false_iff, Nat.eqb_eq in Hne. lia.
  - lia.
Qed.

#[global] Instance VectorIterator_bounded A :
    BoundedIterator (VectorIterator.t A) A.
Proof.
  refine {| distance cur e := VectorIterator.idx e - VectorIterator.idx cur |}.
  - intros it. simpl. by rewrite Nat.eqb_refl.
  - intros cur e l Hl%vector_traverses_length. lia.
Defined.

(** A container-backed flow materialises to its container. *)
Lemma AsVector_AsDataFlow {A} (v : list A) :
  AsVector (S (length v)) (AsDataFlow v) = Some v.
Proof.
  apply AsVector_traverses. split; [|lia].
  apply (vector_traverses_drop v 0). lia.
Qed.

(** ** [Transform] *)

Section transform.
Context {It A B : Type} `{!Iterator It A}.

Lemma Transform_traverses (f : A → B) (cur e : It) (l : list A) :
  traverses cur e l →
  traverses (TransformedFlow.Iterator.mk cur f)
            (TransformedFlow.Iterator.mk e f) (f <$> l).
Proof.
  induction 1 as [cur e Hne | cur e x l Hne Hx _ IH]; simpl.
  - by apply traverses_end.
  - apply traverses_step; simpl; [done| |done]. by rewrite Hx.
Qed.

Lemma Transform_traverses_inv (a b : TransformedFlow.Iterator.t It A B)
    (l : list B) :
  traverses a b l →
  ∃ l', l = TransformedFlow.Iterator.func_ a <$> l' ∧
        traverses (TransformedFlow.Iterator.it_ a)
                  (TransformedFlow.Iterator.it_ b) l'.
Proof.
  induction 1 as [a b Hne | a b y l Hne Hy _ (l' & -> & IH)]; simpl in *.
  - exists []. split; [done|]. by apply traverses_end.
  - destruct (deref (TransformedFlow.Iterator.it_ a)) as [x|] eqn:Hx;
      simplify_eq/=.
    exists (x :: l'). split; [done|]. by apply traverses_step.
Qed.

End transform.

#[global] Instance TransformedFlow_bounded It A B
    `{!Iterator It A, !BoundedIterator It A} :
    BoundedIterator (TransformedFlow.Iterator.t It A B) B.
Proof.
  refine {| distance a b :=
              distance (TransformedFlow.Iterator.it_ a)
                       (TransformedFlow.Iterator.it_ b) |}.
  - intros it. simpl. apply neq_irrefl.
  - intros a b l (l' & -> & Hl')%Transform_traverses_inv.
    rewrite length_fmap. by apply distance_bound.
Defined.

Lemma AsVector_Transform {Prev It A B} `{!Iterator It A, !Flow Prev It A}
    (f : A → B) (prev : Prev) (fuel : nat) :
  AsVector fuel (Transform f prev) = fmap (M:=list) f <$> AsVector fuel prev.
Proof.
  destruct (AsVector fuel prev) as [l|] eqn:Hl; simpl.
  - apply AsVector_traverses in Hl as [Hl Hlen].
    apply AsVector_traverses. rewrite length_fmap. split; [|done].
    by apply Transform_traverses.
  - destruct (AsVector fuel (Transform f prev)) as [l|] eqn:Hl'; [|done].
    apply AsVector_traverses in Hl' as [(l' & -> & Hl')%Transform_traverses_inv Hlen].
    rewrite length_fmap in Hlen.
    assert (AsVector fuel prev = Some l') as Hs by by apply AsVector_traverses.
    congruence.
Qed.

(** ** [Filter] *)

Section filter.
Context {It A : Type} `{!Iterator It A, !BoundedIterator It A}.
Implicit Types (p : A → bool) (cur e : It) (l : list A).

Import FilteredFlow.Iterator.

(** Once the fuel covers the elements left, its amount no longer matters. *)
Lemma skip_loop_fuel p cur e l :
  traverses cur e l →
  ∀ fuel1 fuel2, length l ≤ fuel1 → length l ≤ fuel2 →
    skip_loop fuel1 p cur e = skip_loop fuel2 p cur e.
Proof.
  induction 1 as [cur e Hne | cur e x l Hne Hx _ IH];
    intros [|fuel1] [|fuel2] H1 H2; simpl in *; try lia;
    rewrite ?Hne, ?Hx; try done.
  destruct (p x); [done|]. apply IH; lia.
Qed.

Lemma skip_unmatched_end p e : make e e p = mk e e p.
Proof.
  unfold make, skip_unmatched. simpl. f_equal.
  destruct (distance e e); simpl; [done|]. by rewrite neq_irrefl.
Qed.

Lemma Filter_traverses p cur e l :
  traverses cur e l →
  traverses (make cur e p) (mk e e p) (List.filter p l).
Proof.
  induction 1 as [cur e Hne | cur e x l Hne Hx Hl IH].
  - apply traverses_end. unfold make, skip_unmatched. simpl.
    destruct (distance cur e); simpl; [done|]. by rewrite Hne.
  - assert (S (length l) ≤ distance cur e) as Hd.
    { apply (distance_bound cur e (x :: l)). by apply traverses_step. }
    unfold make, skip_unmatched in *. simpl in *.
    destruct (distance cur e) as [|fuel] eqn:Hfuel; [lia|].
    simpl. rewrite Hne, Hx. destruct (p x) eqn:Hp.
    + apply traverses_step; simpl; [done..|].
      unfold skip_unmatched. simpl. apply IH.
    + rewrite (skip_loop_fuel p _ _ _ Hl fuel (distance (incr cur) e));
        [done|lia|]. by apply distance_bound.
Qed.

End filter.

(** Over a bounded flow (a container, or views over a container that keep
    it bounded), materialising [Filter(p)] yields the elements of the
    materialised flow that satisfy [p], in their original order. *)
Theorem AsVector_Filter {Prev It A}
    `{!Iterator It A, !BoundedIterator It A, !Flow Prev It A}
    (p : A → bool) (prev : Prev) (fuel : nat) (l : list A) :
  AsVector fuel prev = Some l →
  AsVector fuel (Filter p prev) = Some (List.filter p l).
Proof.
  rewrite !AsVector_traverses. intros [Hl Hlen]. split.
  - simpl. rewrite skip_unmatched_end. by apply Filter_traverses.
  - pose proof (List.filter_length_le p l). lia.
Qed.

(** [Filter] at a vector of four numbers and the predicate "even". *)
Lemma AsVector_Filter_witness :
  AsVector 5 (AsDataFlow [1; 2; 3; 4]) = Some [1; 2; 3; 4] ∧
  AsVector 5 (Filter Nat.even (AsDataFlow [1; 2; 3; 4])) = Some [2; 4].
Proof.
  split; [reflexivity|].
  apply (AsVector_Filter Nat.even (AsDataFlow [1; 2; 3; 4]) 5 [1; 2; 3; 4]).
  reflexivity.
Defined.

(** [Filter] over a container, with the fuel spelled out. *)
Lemma AsVector_Filter_AsDataFlow {A} (p : A → bool) (v : list A) :
  AsVector (S (length v)) (Filter p (AsDataFlow v)) = Some (List.filter p v).
Proof.
  apply AsVector_traverses. split.
  - simpl. rewrite skip_unmatched_end. apply Filter_traverses.
    apply (vector_traverses_drop v 0). lia.
  - pose proof (List.filter_length_le p v). lia.
Qed.

Lemma Transform_iter_incr {It A B} `{!Iterator It A}
    (f : A → B) (it : It) (n : nat) :
  Nat.iter n incr (TransformedFlow.Iterator.mk it f) =
  TransformedFlow.Iterator.mk (Nat.iter n incr it) f.
Proof. induction n as [|n IH]; [done|]. by rewrite !Nat.iter_succ, IH. Qed.

(** C6. [Transform(g)] over [Transform(f)] is element-wise equal to
    [Transform(x => g(f(x)))]: the two flows materialise to the same vector
    with any fuel, and after any number of increments their iterators
    dereference to the same element and agree on having reached the end. *)
Theorem Transform_Transform {Prev It A B C} `{!Iterator It A, !Flow Prev It A}
    (f : A → B) (g : B → C) (prev : Prev) :
  (∀ fuel,
     AsVector fuel (Transform g (Transform f prev)) =
     AsVector fuel (Transform (λ x, g (f x)) prev)) ∧
  (∀ n,
     let two := Transform g (Transform f prev) in
     let one := Transform (λ x, g (f x)) prev in
     deref (Nat.iter n incr (flow_begin two)) =
       deref (Nat.iter n incr (flow_begin one)) ∧
     neq (Nat.iter n incr (flow_begin two)) (flow_end two) =
       neq (Nat.iter n incr (flow_begin one)) (flow_end one)).
Proof.
  split.
  - intros fuel. rewrite !AsVector_Transform.
    destruct (AsVector fuel prev) as [l|]; simpl; [|done].
    by rewrite <- list_fmap_compose.
  - intros n. cbv zeta. unfold Transform.
    cbn [flow_begin flow_end TransformedFlow.flow
         TransformedFlow.prev_ TransformedFlow.func_].
    rewrite !Transform_iter_incr. simpl.
    split; [|done]. by destruct (deref _).
Qed.

(** ** [Split] *)

Section fields.
Variable delims : string.
Implicit Types (s t r : string) (p k : nat).

Lemma string_app_cons c s t : String c s +:+ t = String c (s +:+ t).
Proof. done. Qed.

Lemma string_app_nil s : EmptyString +:+ s = s.
Proof. done. Qed.

Lemma fields_first_field s :
  fields delims s =
  (first_field delims s).1 ::
    from_option (fields delims) [] (first_field delims s).2.
Proof.
  induction s as [|c s IH]; simpl; [done|].
  destruct (StdString.contains delims c); simpl; [done|]. by rewrite IH.
Qed.

Lemma fields_length s :
  length (fields delims s) = S (count_delimiters delims s).
Proof.
  induction s as [|c s IH]; simpl; [done|].
  destruct (StdString.contains delims c); simpl; [by rewrite IH|].
  by destruct (fields delims s).
Qed.

(** A delimiter ends one list of fields and starts the next. *)
Lemma fields_app_delimiter s c r :
  StdString.contains delims c = true →
  fields delims (s +:+ String c r) = fields delims s ++ fields delims r.
Proof.
  intros Hc. induction s as [|d s IH].
  - rewrite string_app_nil. simpl. by rewrite Hc.
  - rewrite string_app_cons. simpl. rewrite IH.
    destruct (StdString.contains delims d); [done|].
    pose proof (fields_length s). by destruct (fields delims s).
Qed.

Lemma tail_from_length p s :
  String.length (StdString.tail_from p s) = String.length s - p.
Proof. revert s. induction p as [|p IH]; intros [|c s]; simpl; auto. Qed.

Lemma tail_from_add p k s :
  StdString.tail_from (p + k) s = StdString.tail_from k (StdString.tail_from p s).
Proof.
  revert s. induction p as [|p IH]; intros [|c s]; simpl; auto. by destruct k.
Qed.

Lemma substring_tail_from p k s :
  String.substring p k s = String.substring 0 k (StdString.tail_from p s).
Proof.
  revert s. induction p as [|p IH]; intros [|c s]; simpl; auto.
  by destruct k.
Qed.

Lemma substring_all s : String.substring 0 (String.length s) s = s.
Proof. induction s as [|c s IH]; simpl; [done|]. by rewrite IH. Qed.

Lemma first_field_substring s :
  String.substring 0 (String.length (first_field delims s).1) s =
  (first_field delims s).1.
Proof.
  induction s as [|c s IH]; simpl; [done|].
  destruct (StdString.contains delims c); simpl; [done|]. by rewrite IH.
Qed.

Lemma first_field_rest s r :
  (first_field delims s).2 = Some r →
  StdString.tail_from (S (String.length (first_field delims s).1)) s = r ∧
  S (String.length (first_field delims s).1) ≤ String.length s.
Proof.
  induction s as [|c s IH]; simpl; [done|].
  destruct (StdString.contains delims c); simpl.
  - intros [= ->]. split; [done|lia].
  - intros [? ?]%IH. split; [done|lia].
Qed.

Lemma first_field_no_rest s :
  (first_field delims s).2 = None → (first_field delims s).1 = s.
Proof.
  induction s as [|c s IH]; simpl; [done|].
  destruct (StdString.contains delims c); simpl; [done|].
  intros ?. f_equal. auto.
Qed.

Lemma scan_first_of_first_field s (i : N) :
  StdString.scan_first_of delims s i =
  match (first_field delims s).2 with
  | None => StdString.npos
  | Some _ => (i + N.of_nat (String.length (first_field delims s).1))%N
  end.
Proof.
  revert i. induction s as [|c s IH]; intros i; simpl; [done|].
  destruct (StdString.contains delims c); simpl; [lia|].
  rewrite IH. destruct (first_field delims s).2; [lia|done].
Qed.

End fields.

Lemma npos_value : StdString.npos = 18446744073709551615%N.
Proof. reflexivity. Qed.

Lemma size_t_modulus : (2 ^ 64 = 18446744073709551616)%N.
Proof. reflexivity. Qed.

Section split.
Variable delims : string.
Implicit Types (s t r tok : string) (p i : nat) (chunks : list string).

Lemma cut_token_spec {It} `{!Iterator It string} (cur e : It) tok s p :
  p ≤ String.length s →
  (StdString.size s < StdString.npos)%N →
  SplitFlow.Iterator.cut_token
    (SplitFlow.Iterator.mk cur e delims tok s (N.of_nat p)) =
  SplitFlow.Iterator.mk cur e delims
    (first_field delims (StdString.tail_from p s)).1 s
    (match (first_field delims (StdString.tail_from p s)).2 with
     | None => StdString.npos
     | Some _ =>
         N.of_nat
           (p + S (String.length
                     (first_field delims (StdString.tail_from p s)).1))
     end).
Proof.
  intros Hp Hs. unfold SplitFlow.Iterator.cut_token.
  cbn [SplitFlow.Iterator.current_ SplitFlow.Iterator.end_
       SplitFlow.Iterator.delimiters_ SplitFlow.Iterator.current_content_
       SplitFlow.Iterator.current_pos_].
  unfold StdString.find_first_of. rewrite Nat2N.id, scan_first_of_first_field.
  pose proof (tail_from_length p s) as Hlen.
  unfold StdString.size in Hs. rewrite npos_value in Hs.
  destruct (first_field delims (StdString.tail_from p s)).2 as [r'|] eqn:Ho.
  - destruct (first_field_rest _ _ _ Ho) as [_ Hle].
    rewrite npos_value, size_t_modulus.
    destruct (N.eqb_spec
      (N.of_nat p +
       N.of_nat (String.length (first_field delims (StdString.tail_from p s)).1))
      18446744073709551615) as [Heq|_]; [lia|].
    f_equal.
    + unfold StdString.substr, StdString.size.
      rewrite Nat2N.id, substring_tail_from.
      replace (N.to_nat _) with
        (String.length (first_field delims (StdString.tail_from p s)).1) by lia.
      apply first_field_substring.
    + rewrite N.mod_small by lia. lia.
  - rewrite N.eqb_refl. f_equal.
    unfold StdString.substr, StdString.size. rewrite npos_value, Nat2N.id.
    replace (N.to_nat _) with (String.length s - p) by lia.
    rewrite substring_tail_from, <- Hlen, substring_all.
    symmetry. by apply first_field_no_rest.
Qed.

(** [next_token] over the chunks of a vector: the three ways it can go. *)
Ltac next_token_unfold :=
  unfold SplitFlow.Iterator.next_token;
  cbn [SplitFlow.Iterator.current_ SplitFlow.Iterator.end_
       SplitFlow.Iterator.delimiters_ SplitFlow.Iterator.current_content_
       SplitFlow.Iterator.current_pos_ SplitFlow.Iterator.current_token_
       neq incr deref VectorIterator.iterator VectorIterator.idx
       VectorIterator.vec].

Lemma next_token_same_chunk chunks i n tok s p :
  i ≠ n →
  p ≤ String.length s →
  (StdString.size s < StdString.npos)%N →
  SplitFlow.Iterator.next_token
    (SplitFlow.Iterator.mk
       (VectorIterator.mk chunks i) (VectorIterator.mk chunks n)
       delims tok s (N.of_nat p)) =
  SplitFlow.Iterator.mk
    (VectorIterator.mk chunks i) (VectorIterator.mk chunks n) delims
    (first_field delims (StdString.tail_from p s)).1 s
    (match (first_field delims (StdString.tail_from p s)).2 with
     | None => StdString.npos
     | Some _ =>
         N.of_nat
           (p + S (String.length
                     (first_field delims (StdString.tail_from p s)).1))
     end).
Proof.
  intros Hi Hp Hs. next_token_unfold.
  rewrite (proj2 (Nat.eqb_neq i n)) by done. cbn [negb].
  destruct (N.eqb_spec (N.of_nat p) StdString.npos) as [Heq|_].
  { unfold StdString.size in Hs. rewrite npos_value in *. lia. }
  by apply cut_token_spec.
Qed.

Lemma next_token_next_chunk chunks i n tok s c :
  i ≠ n → S i ≠ n →
  chunks !! S i = Some c →
  (StdString.size c < StdString.npos)%N →
  SplitFlow.Iterator.next_token
    (SplitFlow.Iterator.mk
       (VectorIterator.mk chunks i) (VectorIterator.mk chunks n)
       delims tok s StdString.npos) =
  SplitFlow.Iterator.mk
    (VectorIterator.mk chunks (S i)) (VectorIterator.mk chunks n) delims
    (first_field delims c).1 c
    (match (first_field delims c).2 with
     | None => StdString.npos
     | Some _ => N.of_nat (S (String.length (first_field delims c).1))
     end).
Proof.
  intros Hi HSi Hc Hs. next_token_unfold.
  rewrite (proj2 (Nat.eqb_neq i n)) by done. cbn [negb].
  rewrite N.eqb_refl, (proj2 (Nat.eqb_neq (S i) n)) by done. cbn [negb].
  rewrite Hc. cbn [default from_option].
  by rewrite (cut_token_spec _ _ _ _ 0 (Nat.le_0_l _) Hs).
Qed.

Lemma next_token_exhausted chunks i n tok s :
  i ≠ n → S i = n →
  SplitFlow.Iterator.next_token
    (SplitFlow.Iterator.mk
       (VectorIterator.mk chunks i) (VectorIterator.mk chunks n)
       delims tok s StdString.npos) =
  SplitFlow.Iterator.mk
    (VectorIterator.mk chunks (S i)) (VectorIterator.mk chunks n) delims
    EmptyString s StdString.npos.
Proof.
  intros Hi HSi. next_token_unfold.
  rewrite (proj2 (Nat.eqb_neq i n)) by done. cbn [negb].
  by rewrite N.eqb_refl, (proj2 (Nat.eqb_eq (S i) n)) by done.
Qed.

(** The tokens that follow the current one: the fields of what is left of the
    current chunk ([pending]; [None] once [current_pos_] is [npos]), then the
    fields of the chunks after it. *)
Definition following chunks i (pending : option string) : list string :=
  from_option (fields delims) [] pending ++
  flat_map (fields delims) (drop (S i) chunks).

Lemma Split_traverses chunks :
  Forall (λ c, (StdString.size c < StdString.npos)%N) chunks →
  ∀ toks i tok s pos pending,
    chunks !! i = Some s →
    match pending with
    | None => pos = StdString.npos
    | Some r =>
        ∃ p, p ≤ String.length s ∧ pos = N.of_nat p ∧
             r = StdString.tail_from p s
    end →
    following chunks i pending = toks →
    traverses
      (SplitFlow.Iterator.mk
         (VectorIterator.mk chunks i) (VectorIterator.mk chunks (length chunks))
         delims tok s pos)
      (SplitFlow.Iterator.mk
         (VectorIterator.mk chunks (length chunks))
         (VectorIterator.mk chunks (length chunks))
         delims EmptyString EmptyString 0%N)
      (tok :: toks).
Proof.
  intros Hchunks.
  pose proof (proj1 (Forall_lookup _ _) Hchunks) as Hsize.
  induction toks as [|t' toks IH]; intros i tok s pos pending Hi Hpos Hfol;
    pose proof (lookup_lt_Some _ _ _ Hi) as Hlt;
    (apply traverses_step; [| done |]);
    try (simpl; by rewrite (proj2 (Nat.eqb_neq i (length chunks))) by lia);
    change (incr ?it) with (SplitFlow.Iterator.next_token it).
  - (* the last token *)
    unfold following in Hfol. apply app_eq_nil in Hfol as [Hpend Hrest].
    destruct pending as [r|]; simpl in Hpend.
    { pose proof (fields_length delims r) as Hr. by rewrite Hpend in Hr. }
    subst pos.
    assert (S i = length chunks) as Hend.
    { destruct (drop (S i) chunks) as [|c rest] eqn:Hdrop.
      - apply (f_equal length) in Hdrop. rewrite length_drop in Hdrop.
        simpl in Hdrop. lia.
      - simpl in Hrest. pose proof (fields_length delims c) as Hc.
        apply app_eq_nil in Hrest as [Hrest _]. by rewrite Hrest in Hc. }
    rewrite next_token_exhausted by lia. rewrite Hend.
    apply traverses_end. simpl. by rewrite Nat.eqb_refl.
  - destruct pending as [r|].
    + (* the next token lies in the current chunk *)
      destruct Hpos as (p & Hp & -> & ->).
      rewrite next_token_same_chunk by (eauto; lia).
      unfold following in Hfol. cbn [from_option] in Hfol.
      rewrite fields_first_field in Hfol.
      simpl in Hfol. injection Hfol as <- Hfol.
      apply (IH _ _ _ _ (first_field delims (StdString.tail_from p s)).2);
        [done| |exact Hfol].
      destruct (first_field delims (StdString.tail_from p s)).2
        as [r'|] eqn:Ho; [|done].
      destruct (first_field_rest _ _ _ Ho) as [Hr' Hle].
      pose proof (tail_from_length p s) as Hlen.
      exists (p + S (String.length
                       (first_field delims (StdString.tail_from p s)).1)).
      split_and!; [lia|done|]. by rewrite tail_from_add.
    + (* the next token opens the next chunk *)
      subst pos. unfold following in Hfol. simpl in Hfol.
      destruct (drop (S i) chunks) as [|c rest] eqn:Hdrop; [done|].
      assert (chunks !! S i = Some c) as Hc.
      { rewrite <- (Nat.add_0_r (S i)), <- lookup_drop. by rewrite Hdrop. }
      pose proof (lookup_lt_Some _ _ _ Hc) as Hlt'.
      rewrite (next_token_next_chunk _ _ _ _ _ c) by (eauto; lia).
      simpl in Hfol. rewrite fields_first_field in Hfol.
      simpl in Hfol. injection Hfol as <- Hfol.
      apply (IH _ _ _ _ (first_field delims c).2); [done| |].
      * destruct (first_field delims c).2 as [r'|] eqn:Ho; [|done].
        destruct (first_field_rest _ _ _ Ho) as [Hr' Hle].
        exists (S (String.length (first_field delims c).1)).
        split_and!; [lia|done|done].
      * unfold following. rewrite <- Hfol. f_equal.
        assert (rest = drop (S (S i)) chunks) as ->; [|done].
        replace (S (S i)) with (S i + 1) by lia.
        by rewrite <- drop_drop, Hdrop.
Qed.

End split.

Lemma materialises_inj {F It A} `{!Iterator It A, !Flow F It A}
    (prev : F) (l1 l2 : list A) :
  materialises prev l1 → materialises prev l2 → l1 = l2.
Proof.
  intros [f1 [H1 _]%AsVector_traverses] [f2 [H2 _]%AsVector_traverses].
  by eapply traverses_inj.
Qed.

Lemma Split_flow_end (delims : string) (chunks : list string) :
  flow_end (Split delims (AsDataFlow chunks)) =
  SplitFlow.Iterator.mk
    (VectorIterator.mk chunks (length chunks))
    (VectorIterator.mk chunks (length chunks))
    delims EmptyString EmptyString 0%N.
Proof.
  unfold Split, AsDataFlow.
  cbn [flow_end SplitFlow.flow SplitFlow.prev_ SplitFlow.delimiters_
       DataFlow_flow DataFlowSource_flow flow_ container_].
  unfold SplitFlow.Iterator.make.
  cbn [neq VectorIterator.iterator VectorIterator.idx].
  by rewrite Nat.eqb_refl.
Qed.

Lemma Split_flow_begin (delims : string) (chunks : list string) (c : string) :
  chunks !! 0 = Some c →
  fits_size_t c →
  flow_begin (Split delims (AsDataFlow chunks)) =
  SplitFlow.Iterator.mk
    (VectorIterator.mk chunks 0) (VectorIterator.mk chunks (length chunks))
    delims (first_field delims c).1 c
    (match (first_field delims c).2 with
     | None => StdString.npos
     | Some _ => N.of_nat (S (String.length (first_field delims c).1))
     end).
Proof.
  intros Hc Hsize. pose proof (lookup_lt_Some _ _ _ Hc) as Hlt.
  unfold Split, AsDataFlow.
  cbn [flow_begin flow_end SplitFlow.flow SplitFlow.prev_ SplitFlow.delimiters_
       DataFlow_flow DataFlowSource_flow flow_ container_].
  unfold SplitFlow.Iterator.make.
  cbn [neq deref VectorIterator.iterator VectorIterator.idx VectorIterator.vec].
  rewrite (proj2 (Nat.eqb_neq 0 (length chunks))) by lia. cbn [negb].
  rewrite Hc. cbn [default from_option].
  by rewrite (next_token_same_chunk delims chunks 0 _ _ c 0) by (done || lia).
Qed.

(** Over a vector of at least one chunk, [Split] yields the fields of every
    chunk, chunk after chunk. *)
Lemma AsVector_Split (delims : string) (chunks : list string) :
  chunks ≠ [] →
  Forall fits_size_t chunks →
  AsVector (S (length (flat_map (fields delims) chunks)))
    (Split delims (AsDataFlow chunks)) =
  Some (flat_map (fields delims) chunks).
Proof.
  intros Hne Hsize. apply AsVector_traverses. split; [|lia].
  destruct chunks as [|c rest] eqn:Hchunks; [done|]. rewrite <- Hchunks in *.
  assert (chunks !! 0 = Some c) as Hc by by rewrite Hchunks.
  assert (fits_size_t c) as Hfits.
  { rewrite Hchunks in Hsize. by apply Forall_inv in Hsize. }
  rewrite Split_flow_end, (Split_flow_begin _ _ c) by done.
  replace (flat_map (fields delims) chunks) with
    ((first_field delims c).1 :: following delims chunks 0
                                   (first_field delims c).2).
  2:{ unfold following. rewrite Hchunks. simpl. rewrite drop_0.
      by rewrite (fields_first_field delims c). }
  apply (Split_traverses delims chunks Hsize _ 0 _ c _
           (first_field delims c).2); [done| |done].
  destruct (first_field delims c).2 as [r|] eqn:Ho; [|done].
  destruct (first_field_rest _ _ _ Ho) as [? ?].
  by exists (S (String.length (first_field delims c).1)).
Qed.

(** Over an upstream without chunks the traversal never ends: the begin
    iterator keeps [current_pos_ = 0], so it never compares equal to the end
    iterator. *)
Lemma AsVector_Split_empty (delims : string) (fuel : nat) :
  AsVector fuel (Split delims (AsDataFlow [])) = None.
Proof.
  unfold AsVector. generalize (@nil string) at 3.
  induction fuel as [|fuel IH]; intros result; [done|]. apply IH.
Qed.

(** The end iterator of [Split] keeps [current_pos_ = 0], so it differs from
    itself: a view whose constructor compares against it, as [Filter]'s does,
    is outside what is proved about bounded flows. *)
Lemma Split_end_differs_from_itself (delims : string) (chunks : list string) :
  neq (flow_end (Split delims (AsDataFlow chunks)))
      (flow_end (Split delims (AsDataFlow chunks))) = true.
Proof. rewrite Split_flow_end. simpl. by rewrite Nat.eqb_refl. Qed.

Lemma string_app_length (s t : string) :
  String.length (s +:+ t) = String.length s + String.length t.
Proof.
  induction s as [|c s IH]; [done|].
  rewrite string_app_cons. simpl. by rewrite IH.
Qed.

Lemma materialises_Split (delims : string) (chunks : list string)
    (toks : list string) :
  chunks ≠ [] →
  Forall fits_size_t chunks →
  materialises (Split delims (AsDataFlow chunks)) toks ↔
  toks = flat_map (fields delims) chunks.
Proof.
  intros Hne Hsize. split.
  - intros Htoks. apply (materialises_inj _ _ _ Htoks).
    eexists. by apply AsVector_Split.
  - intros ->. eexists. by apply AsVector_Split.
Qed.

Lemma fits_size_t_app_l (s t : string) : fits_size_t (s +:+ t) → fits_size_t s.
Proof.
  unfold fits_size_t, StdString.size. rewrite string_app_length, npos_value. lia.
Qed.

Lemma fits_size_t_app_r (s t : string) : fits_size_t (s +:+ t) → fits_size_t t.
Proof.
  unfold fits_size_t, StdString.size. rewrite string_app_length, npos_value. lia.
Qed.

Lemma fits_size_t_tail (c : ascii) (s : string) :
  fits_size_t (String c s) → fits_size_t s.
Proof.
  unfold fits_size_t, StdString.size. rewrite npos_value.
  cbn [String.length]. lia.
Qed.

Lemma flat_map_fields_length (delims : string) (chunks : list string) :
  length (flat_map (fields delims) chunks) =
  length chunks + sum_list (count_delimiters delims <$> chunks).
Proof.
  induction chunks as [|c chunks IH]; [done|].
  rewrite fmap_cons. cbn [flat_map sum_list sum_list_with].
  rewrite length_app, fields_length, IH. simpl. lia.
Qed.

(** C4. Splitting the chunk "a.b.c" on "." yields "a", "b", "c", and "a..b"
    yields "a", the empty token, "b".  In general: two consecutive delimiters leave an
    empty token between the tokens before and after them, a delimiter that
    ends a chunk leaves a trailing empty token, and no token is removed: a
    vector of chunks yields one token per chunk and one more per delimiter
    character, the fields of each chunk in order. *)
Theorem Split_tokens :
  AsVector 4 (Split "." (AsDataFlow ["a.b.c"%string])) =
    Some ["a"; "b"; "c"]%string ∧
  AsVector 4 (Split "." (AsDataFlow ["a..b"%string])) =
    Some ["a"; EmptyString; "b"]%string ∧
  (∀ delims u v c1 c2 tu tv,
     StdString.contains delims c1 = true →
     StdString.contains delims c2 = true →
     fits_size_t (u +:+ String c1 (String c2 v)) →
     materialises (Split delims (AsDataFlow [u])) tu →
     materialises (Split delims (AsDataFlow [v])) tv →
     materialises (Split delims (AsDataFlow [u +:+ String c1 (String c2 v)]))
       (tu ++ EmptyString :: tv)) ∧
  (∀ delims u c tu,
     StdString.contains delims c = true →
     fits_size_t (u +:+ String c EmptyString) →
     materialises (Split delims (AsDataFlow [u])) tu →
     materialises (Split delims (AsDataFlow [u +:+ String c EmptyString]))
       (tu ++ [EmptyString])) ∧
  (∀ delims chunks,
     chunks ≠ [] →
     Forall fits_size_t chunks →
     ∃ toks,
       materialises (Split delims (AsDataFlow chunks)) toks ∧
       toks = flat_map (fields delims) chunks ∧
       length toks =
         length chunks + sum_list (count_delimiters delims <$> chunks)).
Proof.
  split_and!.
  - reflexivity.
  - reflexivity.
  - intros delims u v c1 c2 tu tv Hc1 Hc2 Hfits Hu Hv.
    pose proof (fits_size_t_app_l _ _ Hfits) as Hfu.
    pose proof (fits_size_t_tail _ _
      (fits_size_t_tail _ _ (fits_size_t_app_r _ _ Hfits))) as Hfv.
    apply materialises_Split in Hu as ->; [|done|by repeat constructor].
    apply materialises_Split in Hv as ->; [|done|by repeat constructor].
    apply materialises_Split; [done|by repeat constructor|].
    simpl. rewrite !app_nil_r.
    rewrite (fields_app_delimiter delims u c1) by done.
    simpl. by rewrite Hc2.
  - intros delims u c tu Hc Hfits Hu.
    pose proof (fits_size_t_app_l _ _ Hfits) as Hfu.
    apply materialises_Split in Hu as ->; [|done|by repeat constructor].
    apply materialises_Split; [done|by repeat constructor|].
    simpl. rewrite !app_nil_r.
    by rewrite (fields_app_delimiter delims u c) by done.
  - intros delims chunks Hne Hfits. eexists. split_and!; [|done|].
    + by apply materialises_Split.
    + apply flat_map_fields_length.
Qed.

(** C4 at the chunk "a.": the trailing delimiter leaves a trailing empty
    token. *)
Lemma Split_tokens_witness :
  StdString.contains "." "."%char = true ∧
  fits_size_t ("a" +:+ String "."%char EmptyString) ∧
  materialises (Split "." (AsDataFlow ["a"%string])) ["a"%string] ∧
  materialises (Split "." (AsDataFlow ["a" +:+ String "."%char EmptyString]))
    (["a"%string] ++ [EmptyString]).
Proof.
  assert (StdString.contains "." "."%char = true) as Hc by reflexivity.
  assert (fits_size_t ("a" +:+ String "."%char EmptyString)) as Hfits
    by reflexivity.
  assert (materialises (Split "." (AsDataFlow ["a"%string])) ["a"%string])
    as Hu by (exists 2; reflexivity).
  split_and!; [done..|].
  exact (proj1 (proj2 (proj2 (proj2 Split_tokens)))
           "."%string "a"%string "."%char ["a"%string] Hc Hfits Hu).
Defined.

(** * Properties of the eager adapters *)

(** ** [Write] *)

Lemma string_app_assoc (s t u : string) : (s +:+ t) +:+ u = s +:+ (t +:+ u).
Proof.
  induction s as [|c s IH]; [done|]. rewrite !string_app_cons. by rewrite IH.
Qed.

Lemma string_app_nil_r (s : string) : s +:+ EmptyString = s.
Proof. induction s as [|c s IH]; [done|]. by rewrite string_app_cons, IH. Qed.

Section write.
Context {A : Type} `{!Insertable A}.
Variable delimiter_ : ascii.

(** The loop once [first] is false: every element is preceded by the
    separator. *)
Definition each_preceded_by (l : list A) : string :=
  foldr (λ elem text, String delimiter_ (inserted elem +:+ text)) EmptyString l.

Lemma Write_loop (l : list A) (os : string) :
  fold_left
    (λ '(os, first, hasElements) elem,
       let os := if negb first then os +:+ String delimiter_ EmptyString else os in
       let os := os +:+ inserted elem in
       (os, false, true))
    l (os, false, true) =
  (os +:+ each_preceded_by l, false, true).
Proof.
  revert os. induction l as [|elem l IH]; intros os; simpl.
  - by rewrite string_app_nil_r.
  - rewrite IH. by rewrite !string_app_assoc.
Qed.

Lemma each_preceded_by_followed (l : list A) :
  each_preceded_by l +:+ String delimiter_ EmptyString =
  String delimiter_ (each_followed_by delimiter_ l).
Proof.
  induction l as [|elem l IH]; simpl; [done|].
  rewrite string_app_cons. f_equal. by rewrite string_app_assoc, IH.
Qed.

Lemma WriteAdapter_spec (os_ : string) (prev : list A) :
  WriteAdapter os_ delimiter_ prev =
  (os_ +:+ each_followed_by delimiter_ prev, prev).
Proof.
  unfold WriteAdapter. destruct prev as [|elem prev].
  - simpl. by rewrite string_app_nil_r.
  - cbn [fold_left negb]. rewrite Write_loop. f_equal. cbn [each_followed_by].
    by rewrite !string_app_assoc, each_preceded_by_followed.
Qed.

End write.

(** C8. The separator-appending sink writes the text of every element
    followed by the separator, the last element included, and hands its
    input back: [1,2,3,4,5] with '|' gives "1|2|3|4|5|", and nothing is
    written for an empty input. *)
Theorem Write_each_followed_by_separator :
  (∀ (A : Type) (ins : Insertable A) (os_ : string) (delimiter_ : ascii)
      (prev : list A),
     WriteAdapter os_ delimiter_ prev =
     (os_ +:+ each_followed_by delimiter_ prev, prev)) ∧
  WriteAdapter EmptyString "|"%char [1; 2; 3; 4; 5]%Z =
    ("1|2|3|4|5|"%string, [1; 2; 3; 4; 5]%Z) ∧
  WriteAdapter EmptyString "|"%char ([] : list Z) = (EmptyString, []).
Proof.
  split_and!; [|reflexivity..].
  intros A ins os_ delimiter_ prev. apply WriteAdapter_spec.
Qed.

(** ** [SplitExpected] *)

Section split_expected.
Context {T E : Type}.
Implicit Types (prev : list (expected T E)) (errors : list E) (values : list T).

Lemma split_existing_expected_loop prev errors values :
  fold_left
    (λ '(errors, values) (elem : expected T E),
       match elem with
       | has_value_ v => (errors, values ++ [v])
       | unexpected e => (errors ++ [e], values)
       end)
    prev (errors, values) =
  (errors ++ errors_of prev, values ++ values_of prev).
Proof.
  revert errors values.
  induction prev as [|[v|e] prev IH]; intros errors values; simpl.
  - by rewrite !app_nil_r.
  - rewrite IH. by rewrite <- app_assoc.
  - rewrite IH. by rewrite <- app_assoc.
Qed.

Lemma SplitExpectedBaseAdapter_loop prev errors values :
  fold_left
    (λ '(good_results, bad_results) (value : expected T E),
       match value with
       | has_value_ v => (good_results ++ [v], bad_results)
       | unexpected e => (good_results, bad_results ++ [e])
       end)
    prev (values, errors) =
  (values ++ values_of prev, errors ++ errors_of prev).
Proof.
  revert errors values.
  induction prev as [|[v|e] prev IH]; intros errors values; simpl.
  - by rewrite !app_nil_r.
  - rewrite IH. by rewrite <- app_assoc.
  - rewrite IH. by rewrite <- app_assoc.
Qed.

Lemma split_existing_expected_spec prev :
  SplitExpectedTransformAdapter.split_existing_expected prev =
  (AsDataFlow (errors_of prev), AsDataFlow (values_of prev)).
Proof.
  unfold SplitExpectedTransformAdapter.split_existing_expected.
  by rewrite split_existing_expected_loop.
Qed.

Lemma SplitExpectedBaseAdapter_spec prev :
  SplitExpectedBaseAdapter prev =
  (AsDataFlow (errors_of prev), AsDataFlow (values_of prev)).
Proof.
  unfold SplitExpectedBaseAdapter. by rewrite SplitExpectedBaseAdapter_loop.
Qed.

Lemma errors_values_length prev :
  length (errors_of prev) + length (values_of prev) = length prev.
Proof. induction prev as [|[v|e] prev IH]; simpl; lia. Qed.

Lemma interleave_errors_values prev :
  interleave (has_value <$> prev) (errors_of prev) (values_of prev) = prev.
Proof.
  induction prev as [|[v|e] prev IH]; simpl; [done|..]; f_equal; exact IH.
Qed.

End split_expected.

(** C3. [SplitExpected] over a sequence of results returns the errors flow
    first and the values flow second; the errors flow holds the error
    payloads in their original order, the values flow the success payloads in
    theirs, their sizes add up to the size of the input, and putting the
    payloads back in the places of the input rebuilds it.  The same holds for
    [SplitExpectedBaseAdapter]. *)
Theorem SplitExpected_partition {T E} (prev : list (expected T E)) :
  let split :=
    SplitExpectedTransformAdapter.call
      SplitExpectedTransformAdapter.is_expected SplitExpected0 prev in
  elements split.1 = errors_of prev ∧
  elements split.2 = values_of prev ∧
  length (elements split.1) + length (elements split.2) = length prev ∧
  interleave (has_value <$> prev) (elements split.1) (elements split.2) = prev ∧
  SplitExpectedBaseAdapter prev = split.
Proof.
  cbv zeta. cbn [SplitExpectedTransformAdapter.call].
  rewrite split_existing_expected_spec, SplitExpectedBaseAdapter_spec.
  cbn [fst snd elements AsDataFlow flow_ container_].
  split_and!; [done|done| | |done].
  - apply errors_values_length.
  - apply interleave_errors_values.
Qed.

(** C9. On elements that are results already, [SplitExpected(f)] never
    applies [f], whatever [f] is: it partitions the elements as
    [SplitExpected()] does. *)
Theorem SplitExpected_ignores_func {Func T E} (f : Func)
    (prev : list (expected T E)) :
  SplitExpectedTransformAdapter.call
    SplitExpectedTransformAdapter.is_expected (SplitExpected f) prev =
  SplitExpectedTransformAdapter.call
    SplitExpectedTransformAdapter.is_expected SplitExpected0 prev ∧
  SplitExpectedTransformAdapter.call
    SplitExpectedTransformAdapter.is_expected (SplitExpected f) prev =
  (AsDataFlow (errors_of prev), AsDataFlow (values_of prev)).
Proof.
  cbn [SplitExpectedTransformAdapter.call]. split; [done|].
  apply split_existing_expected_spec.
Qed.

(** ** [AggregateByKey] *)

Section first_occurrences.
Context {K : Type} `{EqDecision K}.
Implicit Types (k : K) (l ks : list K).

Lemma first_occurrences_elem_of l k : k ∈ first_occurrences l ↔ k ∈ l.
Proof.
  induction l as [|x l IH]; simpl; [done|].
  rewrite !elem_of_cons, list_elem_of_filter, IH.
  destruct (decide (k = x)); intuition congruence.
Qed.

Lemma first_occurrences_NoDup l : NoDup (first_occurrences l).
Proof.
  induction l as [|x l IH]; simpl; [constructor|].
  apply NoDup_cons. split; [|by apply NoDup_filter].
  rewrite list_elem_of_filter. intros [? _]. congruence.
Qed.

Lemma filter_all (P : K → Prop) `{!∀ k, Decision (P k)} l :
  (∀ k, P k) → filter P l = l.
Proof.
  intros HP. induction l as [|x l IH]; [done|].
  by rewrite filter_cons_True, IH.
Qed.

Lemma first_occurrences_app l1 l2 :
  first_occurrences (l1 ++ l2) =
  first_occurrences l1 ++ filter (λ k, k ∉ l1) (first_occurrences l2).
Proof.
  induction l1 as [|x l1 IH]; simpl.
  - rewrite filter_all; [done|]. intros k. apply not_elem_of_nil.
  - rewrite IH, filter_app.
    rewrite (list_filter_filter (λ k', k' ≠ x) (λ k, k ∉ l1)). do 2 f_equal.
    apply list_filter_iff. intros k. rewrite not_elem_of_cons. tauto.
Qed.

Lemma NoDup_split_unique ks1 ks2 ks1' ks2' k :
  NoDup (ks1 ++ k :: ks2) →
  ks1 ++ k :: ks2 = ks1' ++ k :: ks2' →
  ks1 = ks1'.
Proof.
  revert ks1'. induction ks1 as [|x ks1 IH]; intros [|y ks1'] Hnd Heq;
    simplify_eq/=; [done|..].
  - apply NoDup_cons in Hnd as [Hk _]. exfalso. apply Hk.
    rewrite elem_of_app, elem_of_cons. tauto.
  - apply NoDup_cons in Hnd as [Hk _]. exfalso. apply Hk.
    rewrite elem_of_app, elem_of_cons. tauto.
  - apply NoDup_cons in Hnd as [_ Hnd]. f_equal. by eapply IH.
Qed.

(** First-occurrence order: what precedes [k] in [first_occurrences l] are the
    first occurrences of what precedes the first [k] in [l]. *)
Lemma first_occurrences_split l ks1 k ks2 :
  first_occurrences l = ks1 ++ k :: ks2 →
  ∃ l1 l2, l = l1 ++ k :: l2 ∧ (k ∉ l1) ∧ ks1 = first_occurrences l1.
Proof.
  intros Hks.
  assert (k ∈ l) as Hin.
  { apply first_occurrences_elem_of. rewrite Hks, elem_of_app, elem_of_cons.
    tauto. }
  apply list_elem_of_split_l in Hin as (l1 & l2 & -> & Hk).
  exists l1, l2. split_and!; [done..|].
  pose proof (first_occurrences_NoDup (l1 ++ k :: l2)) as Hnd.
  rewrite Hks in Hnd. rewrite first_occurrences_app in Hks. simpl in Hks.
  rewrite filter_cons_True in Hks by done. symmetry in Hks.
  by eapply NoDup_split_unique.
Qed.

(** The keys the last loop of [AggregateByKey] emits, given the keys
    processed so far. *)
Fixpoint emitted `{Countable K} (processed_keys : gset K) (l : list K) :
    list K :=
  match l with
  | [] => []
  | k :: l' =>
      if decide (k ∈ processed_keys) then emitted processed_keys l'
      else k :: emitted ({[k]} ∪ processed_keys) l'
  end.

Lemma emitted_first_occurrences `{Countable K} (P : gset K) l :
  emitted P l = filter (λ k, k ∉ P) (first_occurrences l).
Proof.
  revert P. induction l as [|x l IH]; intros P; simpl; [done|].
  destruct (decide (x ∈ P)) as [Hx|Hx].
  - rewrite filter_cons_False by tauto.
    rewrite IH, list_filter_filter. apply list_filter_iff.
    intros k. split; [|tauto]. intros Hk. split; [done|]. by intros ->.
  - rewrite filter_cons_True by done. f_equal.
    rewrite IH, list_filter_filter. apply list_filter_iff.
    intros k. rewrite not_elem_of_union, not_elem_of_singleton. tauto.
Qed.

End first_occurrences.

Lemma fold_left_ext_eq {A B} (f g : A → B → A) (l : list B) (a : A) :
  (∀ a b, f a b = g a b) → fold_left f l a = fold_left g l a.
Proof.
  intros Hfg. revert a. induction l as [|b l IH]; intros a; simpl; [done|].
  by rewrite Hfg, IH.
Qed.

Section aggregate.
Context {A K Acc : Type} `{Countable K, !ValueInit Acc}.
Implicit Types (m : gmap K Acc) (k : K) (l prev : list A) (acc d : Acc).
Implicit Types (key : A → K) (aggregator : Acc → A → Acc).

Lemma subscript_fst m k : (subscript m k).1 = default value_init (m !! k).
Proof. unfold subscript. by destruct (m !! k). Qed.

Lemma subscript_snd_lookup m k k' :
  default value_init ((subscript m k).2 !! k') = default value_init (m !! k').
Proof.
  unfold subscript. destruct (m !! k) eqn:Hk; simpl; [done|].
  destruct (decide (k = k')) as [->|].
  - by rewrite lookup_insert_eq, Hk.
  - by rewrite lookup_insert_ne.
Qed.

Lemma insert_subscript m k acc : <[k:=acc]> (subscript m k).2 = <[k:=acc]> m.
Proof.
  unfold subscript. destruct (m !! k); simpl; [done|].
  by rewrite insert_insert_eq.
Qed.

(** Every update of the accumulator map amounts to one insertion. *)
Lemma fold_insert_lookup key aggregator d l m k :
  fold_left
    (λ m value,
       <[key value:=aggregator (default d (m !! key value)) value]> m) l m
    !! k =
  if decide (k ∈ key <$> l)
  then Some (fold_left aggregator (filter (λ v, key v = k) l)
               (default d (m !! k)))
  else m !! k.
Proof.
  revert m. induction l as [|v l IH]; intros m.
  { cbn [fold_left]. rewrite fmap_nil.
    by rewrite decide_False by apply not_elem_of_nil. }
  cbn [fold_left]. rewrite IH, fmap_cons. clear IH.
  destruct (decide (key v = k)) as [<-|Hne].
  - rewrite filter_cons_True by done. cbn [fold_left].
    rewrite lookup_insert_eq. cbn [default from_option id].
    rewrite (decide_True (P := key v ∈ key v :: _)) by apply list_elem_of_here.
    destruct (decide (key v ∈ key <$> l)) as [|Hnot]; [done|].
    f_equal. replace (filter (λ v0, key v0 = key v) l) with (@nil A); [done|].
    symmetry. apply elem_of_nil_inv. intros x [Hx ?]%list_elem_of_filter.
    apply Hnot. rewrite <- Hx. by apply list_elem_of_fmap_2.
  - rewrite filter_cons_False by done.
    rewrite lookup_insert_ne by done.
    destruct (decide (k ∈ key <$> l)) as [Hin|Hnot].
    + rewrite decide_True; [done|]. by apply list_elem_of_further.
    + rewrite decide_False; [done|]. rewrite not_elem_of_cons. naive_solver.
Qed.

(** The last loop: it emits the keys [emitted] tells, each with the
    accumulator the map holds for it. *)
Lemma emit_loop key l (result : list (K * Acc)) (P : gset K) m :
  (fold_left
     (λ '(result, processed_keys, m) value,
        let k := key value in
        if decide (k ∈ processed_keys) then (result, processed_keys, m)
        else
          let '(acc, m) := subscript m k in
          (result ++ [(k, acc)], {[k]} ∪ processed_keys, m))
     l (result, P, m)).1.1 =
  result ++ ((λ k, (k, default value_init (m !! k))) <$> emitted P (key <$> l)).
Proof.
  revert result P m. induction l as [|v l IH]; intros result P m.
  { simpl. by rewrite app_nil_r. }
  rewrite fmap_cons. cbn [fold_left emitted].
  destruct (decide (key v ∈ P)); [by rewrite IH|].
  destruct (subscript m (key v)) as [acc m'] eqn:Hsub.
  rewrite IH, <- app_assoc, fmap_cons. cbn [app]. do 2 f_equal.
  - f_equal. by rewrite <- (subscript_fst m (key v)), Hsub.
  - apply list_fmap_ext. intros _ k _. f_equal.
    replace m' with (subscript m (key v)).2 by by rewrite Hsub.
    apply subscript_snd_lookup.
Qed.

End aggregate.

Section aggregate_spec.
Context {Acc : Type} `{!ValueInit Acc}.

Lemma seed_lookup {K} `{Countable K} (initial_value : Acc) (l : list K)
    (m : gmap K Acc) (k : K) :
  fold_left (λ m value, <[value:=initial_value]> m) l m !! k =
  if decide (k ∈ l) then Some initial_value else m !! k.
Proof.
  revert m. induction l as [|v l IH]; intros m; cbn [fold_left].
  { by rewrite decide_False by apply not_elem_of_nil. }
  rewrite IH. destruct (decide (k ∈ l)) as [Hin|Hnot].
  - rewrite decide_True; [done|]. by apply list_elem_of_further.
  - destruct (decide (v = k)) as [->|Hne].
    + rewrite lookup_insert_eq.
      by rewrite decide_True by apply list_elem_of_here.
    + rewrite lookup_insert_ne by done.
      rewrite decide_False; [done|]. rewrite not_elem_of_cons.
      split; [congruence|done].
Qed.

Lemma emitted_empty {K} `{Countable K} (l : list K) :
  emitted ∅ l = first_occurrences l.
Proof.
  rewrite emitted_first_occurrences. apply filter_all.
  intros k. apply not_elem_of_empty.
Qed.

(** The branch for strings: every distinct string once, in first-occurrence
    order, with the fold of the aggregator over its occurrences. *)
Lemma aggregate_strings_spec {KeySelector}
    (adapter : AggregateByKeyAdapter.t Acc (Acc → string → Acc) KeySelector)
    (prev : list string) :
  elements (AggregateByKeyAdapter.aggregate_strings adapter prev) =
  (λ k, (k, fold_left (AggregateByKeyAdapter.aggregator_ adapter)
              (filter (λ v, v = k) prev)
              (AggregateByKeyAdapter.initial_value_ adapter)))
    <$> first_occurrences prev.
Proof.
  unfold AggregateByKeyAdapter.aggregate_strings.
  set (init := AggregateByKeyAdapter.initial_value_ adapter).
  set (agg := AggregateByKeyAdapter.aggregator_ adapter).
  set (m1 := fold_left _ prev ∅). set (m2 := fold_left _ prev m1).
  assert (∀ k, k ∈ prev → m1 !! k = Some init) as Hm1.
  { intros k Hk. subst m1.
    rewrite (fold_left_ext_eq _
      (λ (m : gmap string Acc) value, <[value:=init]> m))
      by (intros; apply insert_subscript).
    rewrite seed_lookup. by rewrite decide_True by done. }
  assert (∀ k, k ∈ prev →
            m2 !! k = Some (fold_left agg (filter (λ v, v = k) prev) init))
    as Hm2.
  { intros k Hk. subst m2.
    rewrite (fold_left_ext_eq _
      (λ (m : gmap string Acc) value,
         <[id value:=agg (default value_init (m !! id value)) value]> m)).
    2:{ intros m v. destruct (subscript m v) as [acc m'] eqn:Hsub.
        rewrite <- (subscript_fst m v), Hsub.
        replace m' with (subscript m v).2 by by rewrite Hsub.
        apply insert_subscript. }
    rewrite fold_insert_lookup, list_fmap_id.
    rewrite decide_True by done. by rewrite Hm1 by done. }
  clearbody m2. clear m1 Hm1.
  pose proof (emit_loop (K := string) id prev [] ∅ m2) as Hemit.
  cbv zeta in Hemit. unfold id at 1 2 3 4 in Hemit.
  destruct (fold_left _ prev ([], ∅, m2)) as [[result P] m3].
  cbn [fst snd app] in Hemit. subst result.
  cbn [elements AsDataFlow flow_ container_].
  rewrite list_fmap_id, emitted_empty.
  apply list_fmap_ext. intros i k Hk%list_elem_of_lookup_2.
  rewrite first_occurrences_elem_of in Hk. f_equal.
  by rewrite Hm2 by done.
Qed.

(** The branch for other element types: the same, with the keys the selector
    extracts. *)
Lemma aggregate_by_selector_spec {A K} `{Countable K}
    (adapter : AggregateByKeyAdapter.t Acc (Acc → A → Acc) (A → K))
    (prev : list A) :
  elements (AggregateByKeyAdapter.aggregate_by_selector adapter prev) =
  (λ k, (k, fold_left (AggregateByKeyAdapter.aggregator_ adapter)
              (filter (λ v, AggregateByKeyAdapter.key_selector_ adapter v = k)
                 prev)
              (AggregateByKeyAdapter.initial_value_ adapter)))
    <$> first_occurrences (AggregateByKeyAdapter.key_selector_ adapter <$> prev).
Proof.
  unfold AggregateByKeyAdapter.aggregate_by_selector.
  set (init := AggregateByKeyAdapter.initial_value_ adapter).
  set (agg := AggregateByKeyAdapter.aggregator_ adapter).
  set (key := AggregateByKeyAdapter.key_selector_ adapter).
  set (m2 := fold_left _ prev ∅).
  assert (∀ k, k ∈ key <$> prev →
            m2 !! k = Some (fold_left agg (filter (λ v, key v = k) prev) init))
    as Hm2.
  { intros k Hk. subst m2.
    rewrite (fold_left_ext_eq _
      (λ (m : gmap K Acc) value,
         <[key value:=agg (default init (m !! key value)) value]> m)).
    2:{ intros m v. cbv zeta. destruct (m !! key v) as [acc|] eqn:Hm.
        - unfold subscript. by rewrite Hm.
        - rewrite insert_subscript. unfold subscript.
          rewrite lookup_insert_eq. by rewrite insert_insert_eq. }
    rewrite fold_insert_lookup. by rewrite decide_True by done. }
  clearbody m2.
  pose proof (emit_loop key prev [] ∅ m2) as Hemit.
  cbv zeta in Hemit.
  destruct (fold_left _ prev ([], ∅, m2)) as [[result P] m3].
  cbn [fst snd app] in Hemit. subst result.
  cbn [elements AsDataFlow flow_ container_].
  rewrite emitted_empty.
  apply list_fmap_ext. intros i k Hk%list_elem_of_lookup_2.
  rewrite first_occurrences_elem_of in Hk. f_equal.
  by rewrite Hm2 by done.
Qed.

End aggregate_spec.

Lemma grouping_law_intro {A K Acc} `{EqDecision K} (key : A → K)
    (initial_value : Acc) (aggregator : Acc → A → Acc)
    (prev : list A) (out : list (K * Acc)) :
  out =
    (λ k, (k, fold_left aggregator (filter (λ v, key v = k) prev)
                initial_value)) <$> first_occurrences (key <$> prev) →
  grouping_law key initial_value aggregator prev out.
Proof.
  intros ->.
  assert (∀ (F : K → Acc) (ks : list K), ((λ k, (k, F k)) <$> ks).*1 = ks)
    as Hfst.
  { intros F ks. rewrite <- list_fmap_compose. apply list_fmap_id. }
  unfold grouping_law. rewrite Hfst. split_and!.
  - intros k. apply first_occurrences_elem_of.
  - apply first_occurrences_NoDup.
  - done.
  - intros ks1 k ks2 (l1 & l2 & Hl & Hk & ->)%first_occurrences_split.
    exists l1, l2. split_and!; [done..|].
    intros k'. apply first_occurrences_elem_of.
  - intros k acc (k' & [= -> ->] & _)%list_elem_of_fmap. done.
Qed.

Lemma fold_left_count {A} (l : list A) (n : nat) :
  fold_left (λ acc _, S acc) l n = n + length l.
Proof.
  revert n. induction l as [|x l IH]; intros n; simpl; [lia|].
  rewrite IH. lia.
Qed.

(** C2. [AggregateByKey] emits (key, accumulated value) pairs whose keys are
    the distinct keys of the input, each exactly once, in the order in which
    the keys first occur in the input, each with the fold of the aggregator
    over the elements of its key; with the counting aggregator (initial value
    0, one increment per element) that value is the number of input elements
    with the key.  Stated for the branch for strings, where an element is its
    own key, and for the branch with a key selector. *)
Theorem AggregateByKey_grouping :
  (∀ (Acc : Type) (vi : ValueInit Acc) (K : Type) (initial_value : Acc)
      (aggregator : Acc → string → Acc) (key_selector : string → K)
      (prev : list string),
     grouping_law id initial_value aggregator prev
       (elements
          (AggregateByKeyAdapter.call AggregateByKeyAdapter.is_string
             (AggregateByKey initial_value aggregator key_selector) prev))) ∧
  (∀ (Acc : Type) (vi : ValueInit Acc) (A K : Type) (eq : EqDecision K)
      (cnt : Countable K) (initial_value : Acc) (aggregator : Acc → A → Acc)
      (key_selector : A → K) (prev : list A),
     grouping_law key_selector initial_value aggregator prev
       (elements
          (AggregateByKeyAdapter.call AggregateByKeyAdapter.is_not_string
             (AggregateByKey initial_value aggregator key_selector) prev))) ∧
  (∀ (K : Type) (key_selector : string → K) (prev : list string)
      (k : string) (n : nat),
     (k, n) ∈ elements
       (AggregateByKeyAdapter.call AggregateByKeyAdapter.is_string
          (AggregateByKey 0 (λ acc _, S acc) key_selector) prev) →
     n = length (filter (λ v, v = k) prev)) ∧
  (∀ (A K : Type) (eq : EqDecision K) (cnt : Countable K)
      (key_selector : A → K) (prev : list A) (k : K) (n : nat),
     (k, n) ∈ elements
       (AggregateByKeyAdapter.call AggregateByKeyAdapter.is_not_string
          (AggregateByKey 0 (λ acc _, S acc) key_selector) prev) →
     n = length (filter (λ v, key_selector v = k) prev)).
Proof.
  split_and!.
  - intros. apply grouping_law_intro.
    cbn [AggregateByKeyAdapter.call].
    by rewrite aggregate_strings_spec, list_fmap_id.
  - intros. apply grouping_law_intro.
    cbn [AggregateByKeyAdapter.call]. by rewrite aggregate_by_selector_spec.
  - intros K key_selector prev k n.
    cbn [AggregateByKeyAdapter.call]. rewrite aggregate_strings_spec.
    intros (k' & [= -> ->] & _)%list_elem_of_fmap.
    cbn [AggregateByKey AggregateByKeyAdapter.aggregator_
         AggregateByKeyAdapter.initial_value_].
    by rewrite fold_left_count.
  - intros A K eq cnt key_selector prev k n.
    cbn [AggregateByKeyAdapter.call]. rewrite aggregate_by_selector_spec.
    intros (k' & [= -> ->] & _)%list_elem_of_fmap.
    cbn [AggregateByKey AggregateByKeyAdapter.aggregator_
         AggregateByKeyAdapter.initial_value_
         AggregateByKeyAdapter.key_selector_].
    by rewrite fold_left_count.
Qed.

(** C2 at six strings with the counting aggregator: "b" occurs three
    times. *)
Lemma AggregateByKey_grouping_witness :
  ("b"%string, 3) ∈
    elements
      (AggregateByKeyAdapter.call AggregateByKeyAdapter.is_string
         (AggregateByKey 0 (λ acc _, S acc) (λ s : string, s))
         ["b"; "a"; "b"; "c"; "a"; "b"]%string) ∧
  3 = length (filter (λ v, v = "b"%string)
                ["b"; "a"; "b"; "c"; "a"; "b"]%string).
Proof.
  assert (("b"%string, 3) ∈
    elements
      (AggregateByKeyAdapter.call AggregateByKeyAdapter.is_string
         (AggregateByKey 0 (λ acc _, S acc) (λ s : string, s))
         ["b"; "a"; "b"; "c"; "a"; "b"]%string)) as Hin.
  { vm_compute. apply list_elem_of_here. }
  split; [exact Hin|].
  exact (proj1 (proj2 (proj2 AggregateByKey_grouping)) string (λ s, s)
           ["b"; "a"; "b"; "c"; "a"; "b"]%string "b"%string 3 Hin).
Defined.

(** C10. For string elements the result of [AggregateByKey] does not depend
    on the key selector, which is never applied: every string is its own
    key. *)
Theorem AggregateByKey_strings_ignore_selector
    {Acc K1 K2 : Type} `{!ValueInit Acc} (initial_value : Acc)
    (aggregator : Acc → string → Acc)
    (key_selector1 : string → K1) (key_selector2 : string → K2)
    (prev : list string) :
  AggregateByKeyAdapter.call AggregateByKeyAdapter.is_string
    (AggregateByKey initial_value aggregator key_selector1) prev =
  AggregateByKeyAdapter.call AggregateByKeyAdapter.is_string
    (AggregateByKey initial_value aggregator key_selector2) prev ∧
  elements
    (AggregateByKeyAdapter.call AggregateByKeyAdapter.is_string
       (AggregateByKey initial_value aggregator key_selector1) prev) =
  (λ k, (k, fold_left aggregator (filter (λ v, v = k) prev) initial_value))
    <$> first_occurrences prev.
Proof.
  split; [reflexivity|].
  cbn [AggregateByKeyAdapter.call]. by rewrite aggregate_strings_spec.
Qed.

(** ** [Join] *)

Section chains.
Context {K V : Type} `{EqDecision K}.
Implicit Types (k : K) (v : V) (chain : list (K * V)).

Lemma chain_equal_range_newest_first k k' v chain :
  chain_equal_range k (emplace_newest_first k' v chain) =
  (if decide (k = k') then [v] else []) ++ chain_equal_range k chain.
Proof.
  unfold chain_equal_range, emplace_newest_first. rewrite filter_cons. simpl.
  destruct (decide (k' = k)) as [->|Hne].
  - by rewrite decide_True by done.
  - by rewrite decide_False by done.
Qed.

Lemma chain_equal_range_oldest_first k k' v chain :
  chain_equal_range k (emplace_oldest_first k' v chain) =
  chain_equal_range k chain ++ (if decide (k = k') then [v] else []).
Proof.
  unfold chain_equal_range, emplace_oldest_first.
  rewrite filter_app, fmap_app. f_equal. rewrite filter_cons. simpl.
  destruct (decide (k' = k)) as [->|Hne].
  - by rewrite decide_True by done.
  - by rewrite decide_False by done.
Qed.

(** The multimap of libstdc++. *)
Definition newest_first_multimap : UnorderedMultimap K V.
Proof.
  refine {| multimap := list (K * V);
            multimap_empty := [];
            emplace := emplace_newest_first;
            equal_range := chain_equal_range |}.
  - done.
  - intros k k' v m. by rewrite chain_equal_range_newest_first.
Defined.

(** The multimap of libc++. *)
Definition oldest_first_multimap : UnorderedMultimap K V.
Proof.
  refine {| multimap := list (K * V);
            multimap_empty := [];
            emplace := emplace_oldest_first;
            equal_range := chain_equal_range |}.
  - done.
  - intros k k' v m. rewrite chain_equal_range_oldest_first.
    apply Permutation_app_comm.
Defined.

End chains.

Arguments newest_first_multimap {_ _ _}.
Arguments oldest_first_multimap {_ _ _}.

(** Whatever the container, after the loop over the right side
    [equal_range k] holds the values emplaced under [k], in some order. *)
Lemma emplace_fold_equal_range {X K V} `{EqDecision K}
    {M : UnorderedMultimap K V} (rk : X → K) (rv : X → V)
    (right : list X) (m : multimap K V) (k : K) :
  equal_range k (fold_left (λ m x, emplace (rk x) (rv x) m) right m) ≡ₚ
  (rv <$> filter (λ x, rk x = k) right) ++ equal_range k m.
Proof.
  revert m. induction right as [|x right IH]; intros m; [done|].
  cbn [fold_left]. rewrite IH, equal_range_emplace, filter_cons.
  destruct (decide (rk x = k)) as [<-|Hne].
  - rewrite decide_True by done. rewrite fmap_cons. simpl.
    symmetry. apply Permutation_middle.
  - by rewrite decide_False by done.
Qed.

(** With the oldest-first chain the order is that of the right side. *)
Lemma emplace_fold_oldest_first {X K V} `{EqDecision K}
    (rk : X → K) (rv : X → V) (right : list X) (k : K) :
  equal_range (UnorderedMultimap := oldest_first_multimap) k
    (fold_left
       (λ m x, emplace (UnorderedMultimap := oldest_first_multimap)
                 (rk x) (rv x) m)
       right (multimap_empty (UnorderedMultimap := oldest_first_multimap))) =
  rv <$> filter (λ x, rk x = k) right.
Proof.
  cbn [equal_range emplace multimap_empty oldest_first_multimap].
  assert (∀ chain,
    chain_equal_range k
      (fold_left (λ m x, emplace_oldest_first (rk x) (rv x) m) right chain) =
    chain_equal_range k chain ++ (rv <$> filter (λ x, rk x = k) right))
    as Hfold.
  { induction right as [|x right IH]; intros chain; cbn [fold_left].
    - by rewrite app_nil_r.
    - rewrite IH, chain_equal_range_oldest_first, filter_cons, <- app_assoc.
      f_equal. destruct (decide (rk x = k)) as [<-|Hne].
      + by rewrite decide_True by done.
      + by rewrite decide_False by done. }
  by rewrite Hfold.
Qed.

Section join.
Context {L R K : Type} `{EqDecision K} {M : UnorderedMultimap K R}.
Context `{!Movable L}.
Implicit Types (adapter : JoinAdapter.t (list R) (L → K) (R → K)).
Implicit Types (left : list L) (range : list R).

(** The rows of the inner loop: the first is built from the left element,
    each later one from what the move before it left behind. *)
Fixpoint moved_rows (left_value : L) range : list (JoinResult L R) :=
  match range with
  | [] => []
  | it :: range' =>
      mkJoinResult left_value (Some it) ::
        moved_rows (moved_from left_value) range'
  end.

Lemma emit_matches_rows (l : L) range (result : list (JoinResult L R)) :
  (JoinAdapter.emit_matches l range result).2 = result ++ moved_rows l range.
Proof.
  revert l result. induction range as [|it range IH]; intros l result; simpl.
  - by rewrite app_nil_r.
  - by rewrite IH, <- app_assoc.
Qed.

Lemma join_one_app adapter (m : multimap K R) result (l : L) :
  JoinAdapter.join_one adapter m result l =
  result ++ JoinAdapter.join_one adapter m [] l.
Proof.
  unfold JoinAdapter.join_one. destruct (equal_range _ m); [done|].
  by rewrite !emit_matches_rows.
Qed.

Lemma JoinAdapter_flat_map adapter left :
  elements (JoinAdapter.call adapter left) = flat_map (rows_for adapter) left.
Proof.
  unfold JoinAdapter.call, elements, AsDataFlow. cbn [flow_ container_].
  rewrite <- (app_nil_l (flat_map _ _)). generalize (@nil (JoinResult L R)).
  induction left as [|l left IH]; intros result; cbn [fold_left flat_map].
  - by rewrite app_nil_r.
  - rewrite IH, join_one_app. by rewrite <- app_assoc.
Qed.

Lemma build_right_map_equal_range adapter (k : K) :
  equal_range k (JoinAdapter.build_right_map adapter) ≡ₚ
  filter (λ r, JoinAdapter.right_key_ adapter r = k)
    (JoinAdapter.right_ adapter).
Proof.
  unfold JoinAdapter.build_right_map.
  rewrite (emplace_fold_equal_range (JoinAdapter.right_key_ adapter) id).
  by rewrite equal_range_empty, app_nil_r, list_fmap_id.
Qed.

Lemma rows_for_unfold adapter (l : L) :
  rows_for adapter l =
  match equal_range (JoinAdapter.left_key_ adapter l)
          (JoinAdapter.build_right_map adapter) with
  | [] => [mkJoinResult l None]
  | range => moved_rows l range
  end.
Proof.
  unfold rows_for, JoinAdapter.join_one.
  destruct (equal_range _ _); [done|]. by rewrite emit_matches_rows.
Qed.

Lemma moved_rows_joined (l : L) range :
  joined <$> moved_rows l range = Some <$> range.
Proof.
  revert l. induction range as [|it range IH]; intros l; simpl; [done|].
  f_equal. apply IH.
Qed.

Lemma moved_rows_base (l : L) range :
  (∀ x : L, moved_from x = x) →
  base <$> moved_rows l range = replicate (length range) l.
Proof.
  intros Hid. induction range as [|it range IH]; simpl; [done|].
  rewrite Hid. f_equal. exact IH.
Qed.

(** One row per match, one row without a match. *)
Lemma rows_for_length adapter (l : L) :
  length (rows_for adapter l) = length (matches adapter l) `max` 1.
Proof.
  rewrite rows_for_unfold.
  pose proof (build_right_map_equal_range adapter
                (JoinAdapter.left_key_ adapter l)) as Hperm.
  apply Permutation_length in Hperm. fold (matches adapter l) in Hperm.
  rewrite <- Hperm. destruct (equal_range _ _) as [|it range]; [done|].
  rewrite <- (length_fmap joined), moved_rows_joined, length_fmap. simpl. lia.
Qed.

(** The joined values of the rows of a left element are its matches, each
    once. *)
Lemma rows_for_joined adapter (l : L) :
  omap joined (rows_for adapter l) ≡ₚ matches adapter l.
Proof.
  rewrite rows_for_unfold. unfold matches.
  rewrite <- (build_right_map_equal_range adapter).
  destruct (equal_range _ _) as [|it range] eqn:Hrange; [done|].
  rewrite <- Hrange. clear Hrange. generalize (equal_range
    (JoinAdapter.left_key_ adapter l) (JoinAdapter.build_right_map adapter)).
  intros rs. revert l. induction rs as [|r rs IH]; intros l; simpl; [done|].
  by rewrite IH.
Qed.

(** A row lacks its joined value exactly when the left element has no
    match. *)
Lemma rows_for_joined_absent adapter (l : L) (row : JoinResult L R) :
  row ∈ rows_for adapter l →
  joined row = None ↔ matches adapter l = [].
Proof.
  rewrite rows_for_unfold.
  pose proof (build_right_map_equal_range adapter
                (JoinAdapter.left_key_ adapter l)) as Hperm.
  fold (matches adapter l) in Hperm.
  destruct (equal_range _ _) as [|it range].
  - apply Permutation_nil_l in Hperm.
    intros ->%list_elem_of_singleton. done.
  - intros Hrow. split.
    + intros Hnone. apply (list_elem_of_fmap_2 joined) in Hrow.
      rewrite moved_rows_joined, Hnone in Hrow.
      by apply list_elem_of_fmap in Hrow as (? & ? & _).
    + intros Hnil. rewrite Hnil in Hperm.
      by apply Permutation_nil_r in Hperm.
Qed.

(** The rows of a left element start with that element. *)
Lemma rows_for_base_first adapter (l : L) :
  head (base <$> rows_for adapter l) = Some l.
Proof. rewrite rows_for_unfold. by destruct (equal_range _ _). Qed.

(** When moving is copying, every row carries its left element. *)
Lemma rows_for_base adapter (l : L) :
  (∀ x : L, moved_from x = x) →
  base <$> rows_for adapter l =
  replicate (length (matches adapter l) `max` 1) l.
Proof.
  intros Hid. rewrite <- rows_for_length, rows_for_unfold.
  destruct (equal_range _ _) as [|it range]; [done|].
  rewrite moved_rows_base by done.
  by rewrite <- (length_fmap base), moved_rows_base, length_replicate.
Qed.

End join.

Section simple_join.
Context {K LV RV : Type} `{EqDecision K} {M : UnorderedMultimap K RV}.
Implicit Types (adapter : SimpleJoinAdapter.t (list (KV K RV))).
Implicit Types (left : list (KV K LV)) (range : list RV).

Lemma push_back_loop {X Y} (f : X → Y) (l : list X) (result : list Y) :
  fold_left (λ result it, result ++ [f it]) l result = result ++ (f <$> l).
Proof.
  revert result. induction l as [|x l IH]; intros result; simpl.
  - by rewrite app_nil_r.
  - rewrite IH. by rewrite <- app_assoc.
Qed.

Lemma paired_join_one_app (m : multimap K RV) result (l : KV K LV) :
  SimpleJoinAdapter.join_one m result l =
  result ++ SimpleJoinAdapter.join_one m [] l.
Proof.
  unfold SimpleJoinAdapter.join_one. destruct (equal_range _ m); [done|].
  by rewrite !(push_back_loop (λ it, mkJoinResult (value l) (Some it))).
Qed.

Lemma SimpleJoinAdapter_flat_map adapter left :
  elements (SimpleJoinAdapter.call adapter left) =
  flat_map (paired_rows_for adapter) left.
Proof.
  unfold SimpleJoinAdapter.call, elements, AsDataFlow. cbn [flow_ container_].
  rewrite <- (app_nil_l (flat_map _ _)). generalize (@nil (JoinResult LV RV)).
  induction left as [|l left IH]; intros result; cbn [fold_left flat_map].
  - by rewrite app_nil_r.
  - rewrite IH, paired_join_one_app. by rewrite <- app_assoc.
Qed.

Lemma paired_build_right_map_equal_range adapter (k : K) :
  equal_range k (SimpleJoinAdapter.build_right_map adapter) ≡ₚ
  value <$> filter (λ r, key r = k) (SimpleJoinAdapter.right_ adapter).
Proof.
  unfold SimpleJoinAdapter.build_right_map.
  rewrite (emplace_fold_equal_range key value).
  by rewrite equal_range_empty, app_nil_r.
Qed.

Lemma paired_rows_for_unfold adapter (l : KV K LV) :
  paired_rows_for adapter l =
  match equal_range (key l) (SimpleJoinAdapter.build_right_map adapter) with
  | [] => [mkJoinResult (value l) None]
  | range => (λ it, mkJoinResult (value l) (Some it)) <$> range
  end.
Proof.
  unfold paired_rows_for, SimpleJoinAdapter.join_one.
  destruct (equal_range _ _); [done|].
  by rewrite (push_back_loop (λ it, mkJoinResult (value l) (Some it))).
Qed.

Lemma paired_rows_for_length adapter (l : KV K LV) :
  length (paired_rows_for adapter l) =
  length (paired_matches adapter l) `max` 1.
Proof.
  rewrite paired_rows_for_unfold.
  pose proof (paired_build_right_map_equal_range adapter (key l)) as Hperm.
  apply Permutation_length in Hperm. fold (paired_matches adapter l) in Hperm.
  rewrite <- Hperm. destruct (equal_range _ _) as [|it range]; [done|].
  rewrite length_fmap. simpl. lia.
Qed.

Lemma paired_rows_for_joined adapter (l : KV K LV) :
  omap joined (paired_rows_for adapter l) ≡ₚ paired_matches adapter l.
Proof.
  rewrite paired_rows_for_unfold. unfold paired_matches.
  rewrite <- (paired_build_right_map_equal_range adapter).
  destruct (equal_range _ _) as [|it range] eqn:Hrange; [done|].
  rewrite <- Hrange. clear Hrange.
  induction (equal_range _ _) as [|r rs IH]; simpl; [done|]. by rewrite IH.
Qed.

Lemma paired_rows_for_joined_absent adapter (l : KV K LV)
    (row : JoinResult LV RV) :
  row ∈ paired_rows_for adapter l →
  joined row = None ↔ paired_matches adapter l = [].
Proof.
  rewrite paired_rows_for_unfold.
  pose proof (paired_build_right_map_equal_range adapter (key l)) as Hperm.
  fold (paired_matches adapter l) in Hperm.
  destruct (equal_range _ _) as [|it range].
  - apply Permutation_nil_l in Hperm.
    intros ->%list_elem_of_singleton. done.
  - intros (r & -> & _)%list_elem_of_fmap. split; [done|].
    intros Hnil. rewrite Hnil in Hperm.
    by apply Permutation_nil_r in Hperm.
Qed.

(** Every row carries the value of its left pair. *)
Lemma paired_rows_for_base adapter (l : KV K LV) :
  base <$> paired_rows_for adapter l =
  replicate (length (paired_matches adapter l) `max` 1) (value l).
Proof.
  rewrite <- paired_rows_for_length, paired_rows_for_unfold.
  destruct (equal_range _ _) as [|it range]; [done|].
  rewrite <- list_fmap_compose, length_fmap. generalize (it :: range).
  intros rs. induction rs as [|r rs IH]; simpl; [done|]. f_equal. apply IH.
Qed.

End simple_join.

Lemma flat_map_length {X Y} (f : X → list Y) (l : list X) :
  length (flat_map f l) = sum_list ((λ x, length (f x)) <$> l).
Proof.
  induction l as [|x l IH]; [done|].
  rewrite fmap_cons. cbn [flat_map sum_list sum_list_with].
  by rewrite length_app, IH.
Qed.

(** The multiplicity law of the selector-key form, for every container: the
    result is the rows of the left elements, left to right; a left element
    with [m] matches has [max m 1] rows, the first of them built from the
    element itself; a row lacks its joined value exactly when [m = 0].  When
    moving a left element is copying it, every row carries its left
    element. *)
Lemma JoinAdapter_multiplicity {L R K} `{EqDecision K}
    {M : UnorderedMultimap K R} `{!Movable L}
    (adapter : JoinAdapter.t (list R) (L → K) (R → K)) (left : list L) :
  elements (JoinAdapter.call adapter left) = flat_map (rows_for adapter) left ∧
  length (elements (JoinAdapter.call adapter left)) =
    sum_list ((λ l, length (matches adapter l) `max` 1) <$> left) ∧
  (∀ l, head (base <$> rows_for adapter l) = Some l) ∧
  (∀ l row, row ∈ rows_for adapter l →
            joined row = None ↔ matches adapter l = []) ∧
  ((∀ x : L, moved_from x = x) →
   base <$> elements (JoinAdapter.call adapter left) =
   flat_map (λ l, replicate (length (matches adapter l) `max` 1) l) left).
Proof.
  split_and!.
  - apply JoinAdapter_flat_map.
  - rewrite JoinAdapter_flat_map, flat_map_length.
    f_equal. apply list_fmap_ext. intros _ l _. apply rows_for_length.
  - apply rows_for_base_first.
  - apply rows_for_joined_absent.
  - intros Hid. rewrite JoinAdapter_flat_map.
    induction left as [|l left IH]; [done|]. cbn [flat_map].
    by rewrite fmap_app, IH, rows_for_base.
Qed.

(** The multiplicity law of the paired form, for every container; the base of
    a row is the value of its left pair. *)
Lemma SimpleJoinAdapter_multiplicity {K LV RV} `{EqDecision K}
    {M : UnorderedMultimap K RV}
    (adapter : SimpleJoinAdapter.t (list (KV K RV))) (left : list (KV K LV)) :
  elements (SimpleJoinAdapter.call adapter left) =
    flat_map (paired_rows_for adapter) left ∧
  length (elements (SimpleJoinAdapter.call adapter left)) =
    sum_list ((λ l, length (paired_matches adapter l) `max` 1) <$> left) ∧
  (∀ (l : KV K LV) row, row ∈ paired_rows_for adapter l →
     joined row = None ↔ paired_matches adapter l = []) ∧
  base <$> elements (SimpleJoinAdapter.call adapter left) =
    flat_map
      (λ l, replicate (length (paired_matches adapter l) `max` 1) (value l))
      left.
Proof.
  split_and!.
  - apply SimpleJoinAdapter_flat_map.
  - rewrite SimpleJoinAdapter_flat_map, flat_map_length.
    f_equal. apply list_fmap_ext. intros _ l _. apply paired_rows_for_length.
  - apply paired_rows_for_joined_absent.
  - rewrite SimpleJoinAdapter_flat_map.
    induction left as [|l left IH]; [done|]. cbn [flat_map].
    by rewrite fmap_app, IH, paired_rows_for_base.
Qed.

(** C1. The selector-key form builds the base of every row of a left element
    with [std::forward<LeftValue>(left_value)], a move from the same object:
    with two matches the second row gets what the first move left behind.
    For the student {1, "b"} and the groups {1, "g"} and {1, "h"} of
    [tests/join_ut.cpp]'s types, whatever the container, the two rows have
    the bases {1, "b"} and {1, empty}, where the claim asks for {1, "b"}
    twice. *)
Theorem JoinAdapter_base_moved_from (M : UnorderedMultimap N Group.t) :
  let students := [Student.mk 1 "b"] in
  let groups := [Group.mk 1 "g"; Group.mk 1 "h"] in
  base <$> elements
    (JoinAdapter.call (M := M) (JoinBy groups Student.group_id Group.id)
       students) =
  [Student.mk 1 "b"; Student.mk 1 EmptyString].
Proof.
  intros students groups. rewrite JoinAdapter_flat_map. subst students.
  cbn [flat_map]. rewrite app_nil_r, rows_for_unfold.
  pose proof (build_right_map_equal_range (M := M)
    (JoinBy (LeftKeySelector := Student.t → N) groups
       Student.group_id Group.id) 1%N) as Hperm.
  apply Permutation_length in Hperm.
  cbn [JoinBy JoinAdapter.left_key_ Student.group_id].
  destruct (equal_range 1%N _) as [|g1 [|g2 [|g3 range]]]; try done.
Qed.

(** C7 fails as stated: with the container of libstdc++ the left key 1
    joined with the right pairs {1, "g"} and {1, "h"} meets "h" before
    "g". *)
Lemma Join_newest_first_reverses :
  omap joined
    (elements
       (JoinAdapter.call (M := newest_first_multimap)
          (JoinBy [mkKV 1%N "g"%string; mkKV 1%N "h"%string] (λ l : N, l) key)
          [1%N])) =
    [mkKV 1%N "h"%string; mkKV 1%N "g"%string] ∧
  ¬ joins_in_right_order newest_first_multimap
      (JoinBy [mkKV 1%N "g"%string; mkKV 1%N "h"%string] (λ l : N, l) key)
      [1%N].
Proof.
  split; [reflexivity|]. intros Horder.
  assert (omap joined
            (rows_for (M := newest_first_multimap)
               (JoinBy [mkKV 1%N "g"%string; mkKV 1%N "h"%string]
                  (λ l : N, l) key) 1%N) =
          matches
            (JoinBy [mkKV 1%N "g"%string; mkKV 1%N "h"%string]
               (λ l : N, l) key) 1%N) as Heq.
  { apply Horder; [apply list_elem_of_here|]. vm_compute. lia. }
  vm_compute in Heq. discriminate Heq.
Qed.

Lemma moved_rows_omap_joined {L R} `{!Movable L} (l : L) (range : list R) :
  omap joined (moved_rows l range) = range.
Proof.
  revert l. induction range as [|it range IH]; intros l; simpl; [done|].
  f_equal. apply IH.
Qed.

(** C7, amended.  Whatever the container, the result is the rows of the left
    elements, left to right, and the rows of a left element carry its
    matching right elements, each exactly once: their joined values are a
    permutation of the matches.  The order among them is the order in which
    the container enumerates equivalent keys; with a container that
    enumerates them oldest first it is the order of the right side.  The same
    holds for the paired form. *)
Theorem Join_matches_each_once {L R K} `{EqDecision K} `{!Movable L}
    (adapter : JoinAdapter.t (list R) (L → K) (R → K)) (left : list L) :
  (∀ M : UnorderedMultimap K R,
     elements (JoinAdapter.call (M := M) adapter left) =
       flat_map (rows_for (M := M) adapter) left ∧
     ∀ l, omap joined (rows_for (M := M) adapter l) ≡ₚ matches adapter l) ∧
  (∀ l, omap joined (rows_for (M := oldest_first_multimap) adapter l) =
        matches adapter l) ∧
  (∀ (LV : Type) (M : UnorderedMultimap K R)
      (paired : SimpleJoinAdapter.t (list (KV K R))) (l : KV K LV),
     omap joined (paired_rows_for (M := M) paired l) ≡ₚ
     paired_matches paired l).
Proof.
  split_and!.
  - intros M. split; [apply JoinAdapter_flat_map|].
    intros l. apply rows_for_joined.
  - intros l. rewrite rows_for_unfold. unfold JoinAdapter.build_right_map.
    rewrite (emplace_fold_oldest_first (JoinAdapter.right_key_ adapter) id).
    rewrite list_fmap_id. fold (matches adapter l).
    destruct (matches adapter l) as [|r rs] eqn:Hm; [done|].
    apply moved_rows_omap_joined.
  - intros LV M paired l. apply paired_rows_for_joined.
Qed.

(** * Further properties of the header *)

(** ** Containers and [Transform] *)

(** X1. Whatever the flow below it and whatever the fuel, [Transform(f)]
    materialises to the image under [f] of what the flow materialises to, and
    does not materialise where the flow does not. *)
Theorem Transform_materialises {Prev It A B} `{!Iterator It A, !Flow Prev It A}
    (f : A → B) (prev : Prev) (fuel : nat) :
  AsVector fuel (Transform f prev) = fmap (M:=list) f <$> AsVector fuel prev.
Proof. apply AsVector_Transform. Qed.

(** X2. A container turned into a flow and materialised again is the
    container: [AsVector] and [to_vector] give it back, and [operator==]
    answers whether the other vector equals it. *)
Theorem AsDataFlow_round_trip {A} `{!EqDecision A} (v other : list A) :
  AsVector (S (length v)) (AsDataFlow v) = Some v ∧
  to_vector (S (length v)) (AsDataFlow v) = Some v ∧
  DataFlow_eq (S (length v)) (AsDataFlow v) other = Some (bool_decide (v = other)).
Proof.
  assert (to_vector (S (length v)) (AsDataFlow v) = Some v) as Hv.
  { apply (AsVector_AsDataFlow v). }
  split_and!; [apply AsVector_AsDataFlow|done|].
  unfold DataFlow_eq. by rewrite Hv.
Qed.

(** X3. The flow [AsDataFlow] builds from string streams is the flow over
    their contents, in order. *)
Theorem AsDataFlow_stringstream_contents (container : list stringstream) :
  AsDataFlow_stringstream container = AsDataFlow (str <$> container) ∧
  AsVector (S (length container)) (AsDataFlow_stringstream container) =
    Some (str <$> container).
Proof.
  assert (AsDataFlow_stringstream container = AsDataFlow (str <$> container))
    as Heq.
  { unfold AsDataFlow_stringstream. by rewrite (push_back_loop str). }
  split; [done|]. rewrite Heq, <- (length_fmap str). apply AsVector_AsDataFlow.
Qed.

(** ** [Write] and [Out] *)

Lemma each_followed_by_app {A} `{!Insertable A} (delimiter : ascii)
    (l1 l2 : list A) :
  each_followed_by delimiter (l1 ++ l2) =
  each_followed_by delimiter l1 +:+ each_followed_by delimiter l2.
Proof.
  induction l1 as [|x l1 IH]; simpl; [done|].
  by rewrite IH, string_app_assoc, string_app_cons.
Qed.

(** X4. [Out] writes what [Write] writes with the line feed as separator,
    and hands the same input back. *)
Theorem OutAdapter_is_Write_line_feed {A} `{!Insertable A}
    (os_ : string) (prev : list A) :
  OutAdapter os_ prev = WriteAdapter os_ "010"%char prev.
Proof.
  rewrite WriteAdapter_spec. unfold OutAdapter. f_equal.
  revert os_. induction prev as [|elem prev IH]; intros os_; simpl.
  - by rewrite string_app_nil_r.
  - rewrite IH. by rewrite !string_app_assoc.
Qed.

(** X5. Writing a sequence in two parts to the same stream gives the text of
    writing it at once: the trailing separator of the first part is the
    separator between the parts. *)
Theorem WriteAdapter_app {A} `{!Insertable A} (os_ : string)
    (delimiter_ : ascii) (l1 l2 : list A) :
  (WriteAdapter os_ delimiter_ (l1 ++ l2)).1 =
  (WriteAdapter (WriteAdapter os_ delimiter_ l1).1 delimiter_ l2).1.
Proof.
  rewrite !WriteAdapter_spec. simpl.
  by rewrite each_followed_by_app, string_app_assoc.
Qed.

(** ** [SplitExpected] with a function *)

(** X6. On elements that are not results, [SplitExpected(f)] partitions the
    results [f] gives for them: it returns what [SplitExpected()] returns for
    the sequence of those results, errors first, each in input order. *)
Theorem SplitExpected_func_partition {A T E} (f : A → expected T E)
    (prev : list A) :
  SplitExpectedTransformAdapter.call
    SplitExpectedTransformAdapter.is_not_expected (SplitExpected f) prev =
  SplitExpectedTransformAdapter.call
    SplitExpectedTransformAdapter.is_expected SplitExpected0 (f <$> prev) ∧
  SplitExpectedTransformAdapter.call
    SplitExpectedTransformAdapter.is_not_expected (SplitExpected f) prev =
  (AsDataFlow (errors_of (f <$> prev)), AsDataFlow (values_of (f <$> prev))).
Proof.
  cbn [SplitExpectedTransformAdapter.call SplitExpected
       SplitExpectedTransformAdapter.func_].
  rewrite split_existing_expected_spec.
  assert (∀ errors values,
    fold_left
      (λ '(errors, values) elem,
         match f elem with
         | has_value_ v => (errors, values ++ [v])
         | unexpected e => (errors ++ [e], values)
         end)
      prev (errors, values) =
    (errors ++ errors_of (f <$> prev), values ++ values_of (f <$> prev)))
    as Hloop.
  { induction prev as [|x prev IH]; intros errors values.
    - simpl. by rewrite !app_nil_r.
    - rewrite fmap_cons. cbn [fold_left].
      destruct (f x) as [v|e]; rewrite IH; unfold errors_of, values_of; simpl;
        by rewrite <- app_assoc. }
  unfold SplitExpectedTransformAdapter.apply_and_split.
  by rewrite Hloop.
Qed.

(** ** [Split] *)

Section split_more.
Variable delims : string.
Implicit Types (s t : string) (chunks toks : list string).

Lemma fields_no_delimiter s :
  Forall (λ t, count_delimiters delims t = 0) (fields delims s).
Proof.
  induction s as [|c s IH]; simpl; [by repeat constructor|].
  destruct (StdString.contains delims c) eqn:Hc; [by constructor|].
  destruct (fields delims s) as [|t ts].
  { constructor; [|constructor]. simpl. by rewrite Hc. }
  apply Forall_cons in IH as [Ht Hts]. constructor; [|done].
  simpl. by rewrite Hc.
Qed.

Lemma fields_without_delimiters s :
  count_delimiters delims s = 0 → fields delims s = [s].
Proof.
  induction s as [|c s IH]; simpl; [done|].
  destruct (StdString.contains delims c); [done|].
  intros Hs. by rewrite IH.
Qed.

Lemma concat_fields (d : ascii) s :
  String.concat (String d EmptyString) (fields delims s) =
  replace_delimiters delims d s.
Proof.
  induction s as [|c s IH]; [done|]. cbn [fields replace_delimiters].
  pose proof (fields_length delims s) as Hlen. rewrite <- IH. clear IH.
  destruct (fields delims s) as [|t ts]; [done|].
  destruct (StdString.contains delims c).
  - done.
  - destruct ts as [|u us]; [done|].
    cbn [String.concat]. by rewrite string_app_cons.
Qed.

End split_more.

Lemma replace_single_delimiter (d : ascii) (s : string) :
  replace_delimiters (String d EmptyString) d s = s.
Proof.
  induction s as [|c s IH]; simpl; [done|]. rewrite IH.
  destruct (Ascii.eqb_spec c d) as [->|]; done.
Qed.

(** X7. Over an upstream without chunks [Split] never reaches its end: with
    any fuel [AsVector] runs out of it, because after any number of increments
    the iterator still holds the empty token and still differs from the end
    iterator. *)
Theorem Split_empty_upstream_never_ends (delims : string) :
  (∀ fuel, AsVector fuel (Split delims (AsDataFlow [])) = None) ∧
  (∀ n,
     deref (Nat.iter n incr (flow_begin (Split delims (AsDataFlow [])))) =
       Some EmptyString ∧
     neq (Nat.iter n incr (flow_begin (Split delims (AsDataFlow []))))
         (flow_end (Split delims (AsDataFlow []))) = true).
Proof.
  split; [apply AsVector_Split_empty|]. intros n.
  assert (Nat.iter n incr (flow_begin (Split delims (AsDataFlow []))) =
          flow_begin (Split delims (AsDataFlow []))) as ->; [|done].
  induction n as [|n IH]; [done|]. by rewrite Nat.iter_succ, IH.
Qed.

(** X8. No token [Split] yields holds a delimiter. *)
Theorem Split_tokens_hold_no_delimiter (delims : string)
    (chunks toks : list string) :
  chunks ≠ [] →
  Forall fits_size_t chunks →
  materialises (Split delims (AsDataFlow chunks)) toks →
  Forall (λ t, count_delimiters delims t = 0) toks.
Proof.
  intros Hne Hfits ->%materialises_Split; [|done..].
  induction chunks as [|c chunks IH]; [done|]. simpl.
  apply Forall_app. split; [apply fields_no_delimiter|].
  destruct chunks as [|c' chunks']; [done|].
  apply IH; [done|]. by apply Forall_cons in Hfits as [_ ?].
Qed.

Lemma Split_tokens_hold_no_delimiter_witness :
  Forall (λ t, count_delimiters "." t = 0) ["a"; "b"]%string.
Proof.
  apply (Split_tokens_hold_no_delimiter "." ["a.b"%string]).
  - discriminate.
  - repeat constructor.
  - exists 3. reflexivity.
Defined.

(** X9. Joining the tokens of a chunk with a character [d] gives the chunk
    with every delimiter replaced by [d]; when [d] is the only delimiter,
    joining the tokens gives the chunk back. *)
Theorem Split_concat_round_trip :
  (∀ (delims : string) (d : ascii) (s : string) (toks : list string),
     fits_size_t s →
     materialises (Split delims (AsDataFlow [s])) toks →
     String.concat (String d EmptyString) toks =
     replace_delimiters delims d s) ∧
  (∀ (d : ascii) (s : string) (toks : list string),
     fits_size_t s →
     materialises (Split (String d EmptyString) (AsDataFlow [s])) toks →
     String.concat (String d EmptyString) toks = s).
Proof.
  assert (∀ (delims : string) (d : ascii) (s : string) (toks : list string),
     fits_size_t s →
     materialises (Split delims (AsDataFlow [s])) toks →
     String.concat (String d EmptyString) toks =
     replace_delimiters delims d s) as Hgen.
  { intros delims d s toks Hfits ->%materialises_Split;
      [|done|by repeat constructor].
    simpl. rewrite app_nil_r. apply concat_fields. }
  split; [done|]. intros d s toks Hfits Htoks.
  rewrite (Hgen _ d s toks Hfits Htoks). apply replace_single_delimiter.
Qed.

Lemma Split_concat_round_trip_witness :
  String.concat "." ["a"; EmptyString; "b"]%string = "a..b"%string.
Proof.
  apply (proj2 Split_concat_round_trip "."%char "a..b"%string).
  - reflexivity.
  - exists 4. reflexivity.
Defined.

(** X10. Chunks without a delimiter pass through [Split] unchanged, one
    token per chunk; so does every chunk when the delimiter set is empty. *)
Theorem Split_without_delimiters :
  (∀ (delims : string) (chunks : list string),
     chunks ≠ [] →
     Forall fits_size_t chunks →
     Forall (λ c, count_delimiters delims c = 0) chunks →
     materialises (Split delims (AsDataFlow chunks)) chunks) ∧
  (∀ chunks : list string,
     chunks ≠ [] →
     Forall fits_size_t chunks →
     materialises (Split EmptyString (AsDataFlow chunks)) chunks).
Proof.
  assert (∀ (delims : string) (chunks : list string),
     chunks ≠ [] →
     Forall fits_size_t chunks →
     Forall (λ c, count_delimiters delims c = 0) chunks →
     materialises (Split delims (AsDataFlow chunks)) chunks) as Hgen.
  { intros delims chunks Hne Hfits Hnone. apply materialises_Split; [done..|].
    clear Hne Hfits. induction Hnone as [|c chunks Hc _ IH]; [done|].
    simpl. by rewrite (fields_without_delimiters delims c Hc), <- IH. }
  split; [done|]. intros chunks Hne Hfits. apply Hgen; [done..|].
  apply Forall_forall. intros c _. by induction c.
Qed.

Lemma Split_without_delimiters_witness :
  materialises (Split "," (AsDataFlow ["a.b"; "c"]%string)) ["a.b"; "c"]%string.
Proof.
  apply (proj1 Split_without_delimiters ","%string ["a.b"; "c"]%string).
  - discriminate.
  - repeat constructor.
  - repeat constructor.
Defined.

Section split_position.
Variable chunks : list string.
Hypothesis chunks_fit : Forall fits_size_t chunks.

Lemma cut_token_state_ok (it : SplitFlow.Iterator.t (VectorIterator.t string)) :
  VectorIterator.vec (SplitFlow.Iterator.current_ it) = chunks →
  fits_size_t (SplitFlow.Iterator.current_content_ it) →
  (SplitFlow.Iterator.current_pos_ it ≤
   StdString.size (SplitFlow.Iterator.current_content_ it))%N →
  split_state_ok chunks (SplitFlow.Iterator.cut_token it).
Proof using Type.
  destruct it as [cur e ds tok s pos].
  cbn [SplitFlow.Iterator.current_ SplitFlow.Iterator.current_content_
       SplitFlow.Iterator.current_pos_].
  intros Hvec Hfits Hpos.
  rewrite <- (N2Nat.id pos).
  assert (N.to_nat pos ≤ String.length s) as Hp.
  { unfold StdString.size in Hpos. lia. }
  rewrite (cut_token_spec ds cur e tok s _ Hp Hfits).
  split; [done|]. split; [done|]. unfold position_in_range.
  cbn [SplitFlow.Iterator.current_content_ SplitFlow.Iterator.current_pos_].
  destruct (first_field ds (StdString.tail_from (N.to_nat pos) s)).2
    as [r|] eqn:Ho; [|by left].
  right. destruct (first_field_rest _ _ _ Ho) as [_ Hle].
  rewrite tail_from_length in Hle. unfold StdString.size. lia.
Qed.

Lemma next_token_state_ok (it : SplitFlow.Iterator.t (VectorIterator.t string)) :
  split_state_ok chunks it → split_state_ok chunks (SplitFlow.Iterator.next_token it).
Proof using chunks_fit.
  destruct it as [cur e ds tok s pos]. unfold split_state_ok at 1.
  unfold position_in_range.
  cbn [SplitFlow.Iterator.current_ SplitFlow.Iterator.current_content_
       SplitFlow.Iterator.current_pos_].
  intros (Hvec & Hfits & Hpos).
  unfold SplitFlow.Iterator.next_token.
  cbn [SplitFlow.Iterator.current_ SplitFlow.Iterator.end_
       SplitFlow.Iterator.delimiters_ SplitFlow.Iterator.current_content_
       SplitFlow.Iterator.current_pos_ SplitFlow.Iterator.current_token_].
  destruct (neq cur e) eqn:Hne; cbn [negb].
  2:{ split; [done|]. by split. }
  destruct (N.eqb_spec pos StdString.npos) as [->|Hnpos].
  - destruct (neq (incr cur) e) eqn:Hne'.
    + apply cut_token_state_ok;
        cbn [SplitFlow.Iterator.current_ SplitFlow.Iterator.current_content_
             SplitFlow.Iterator.current_pos_]; [done| |lia].
      cbn [deref incr VectorIterator.iterator VectorIterator.vec
           VectorIterator.idx]. rewrite Hvec.
      destruct (chunks !! S (VectorIterator.idx cur)) as [c|] eqn:Hc;
        cbn [default]; [|done].
      by eapply (proj1 (Forall_lookup _ _) chunks_fit).
    + split; [done|]. split; [done|by left].
  - apply cut_token_state_ok;
      cbn [SplitFlow.Iterator.current_ SplitFlow.Iterator.current_content_
           SplitFlow.Iterator.current_pos_]; [done..|].
    by destruct Hpos.
Qed.

Lemma Split_begin_state_ok (delims : string) :
  split_state_ok chunks (flow_begin (Split delims (AsDataFlow chunks))).
Proof using chunks_fit.
  unfold Split, AsDataFlow.
  cbn [flow_begin flow_end SplitFlow.flow SplitFlow.prev_ SplitFlow.delimiters_
       DataFlow_flow DataFlowSource_flow flow_ container_].
  unfold SplitFlow.Iterator.make.
  destruct (neq _ _).
  - apply next_token_state_ok. split; [done|]. split; [|by right; cbn; lia].
    cbn [SplitFlow.Iterator.current_content_ deref VectorIterator.iterator
         VectorIterator.vec VectorIterator.idx].
    destruct (chunks !! 0) as [c|] eqn:Hc; cbn [default].
    + by eapply (proj1 (Forall_lookup _ _) chunks_fit).
    + by compute.
  - split; [done|]. split; [by compute|by right; cbn; lia].
Qed.

End split_position.

(** X11 (processing.h, SplitFlow::Iterator).  Over chunks shorter than
    [npos], every iterator reached from [begin()] by any number of [++]
    has its position at [npos] or within the current chunk.  [next_token]
    calls [substr] only when the position is not [npos], so [substr] is
    never asked for a position past [size()], the one case in which it
    throws [std::out_of_range]. *)
Theorem Split_position_in_range (delims : string) (chunks : list string)
    (n : nat) :
  Forall fits_size_t chunks →
  position_in_range
    (Nat.iter n incr (flow_begin (Split delims (AsDataFlow chunks)))).
Proof.
  intros Hfit.
  enough (split_state_ok chunks
            (Nat.iter n incr (flow_begin (Split delims (AsDataFlow chunks)))))
    as (_ & _ & ?) by done.
  induction n as [|n IH]; [by apply Split_begin_state_ok|].
  rewrite Nat.iter_succ. by apply next_token_state_ok.
Qed.

Lemma Split_position_in_range_witness :
  Forall fits_size_t ["a,b"; "c"]%string ∧
  position_in_range
    (Nat.iter 2 incr
       (flow_begin (Split "," (AsDataFlow ["a,b"; "c"]%string)))).
Proof.
  assert (Forall fits_size_t ["a,b"; "c"]%string) as H.
  { repeat constructor; by vm_compute. }
  split; [exact H|]. exact (Split_position_in_range _ _ 2 H).
Defined.

(** ** [Filter] over flows of any kind *)

(** An iterator that differs from itself, stays where it is when
    incremented and holds a rejected element keeps [skip_unmatched] in its
    loop for good. *)
Lemma skip_unmatched_stuck {It A} `{!Iterator It A}
    (E : It) (p : A → bool) (x : A) :
  neq E E = true → incr E = E → deref E = Some x → p x = false →
  ∀ fuel,
    FilteredFlowFuel.skip_unmatched fuel (FilteredFlow.Iterator.mk E E p) = None.
Proof.
  intros Hne Hincr Hx Hp fuel. induction fuel as [|fuel IH]; [done|].
  cbn [FilteredFlowFuel.skip_unmatched FilteredFlow.Iterator.current_
       FilteredFlow.Iterator.end_ FilteredFlow.Iterator.predicate_].
  by rewrite Hne, Hx, Hp, Hincr.
Qed.

Lemma Split_end_stays (delims : string) (chunks : list string) :
  incr (flow_end (Split delims (AsDataFlow chunks))) =
  flow_end (Split delims (AsDataFlow chunks)).
Proof.
  rewrite Split_flow_end.
  cbn [incr SplitFlow.Iterator.iterator].
  unfold SplitFlow.Iterator.next_token.
  cbn [SplitFlow.Iterator.current_ SplitFlow.Iterator.end_ neq
       VectorIterator.iterator VectorIterator.idx].
  by rewrite Nat.eqb_refl.
Qed.

Lemma Split_end_deref (delims : string) (chunks : list string) :
  deref (flow_end (Split delims (AsDataFlow chunks))) = Some EmptyString.
Proof. by rewrite Split_flow_end. Qed.

(** X12 (processing.h, FilteredFlow::end over SplitFlow).  [end()] of a
    [Filter] over a [Split] never returns when the predicate rejects the empty
    string: the constructor's [skip_unmatched] starts at [Split]'s end
    iterator, which differs from itself, holds the empty token and is left
    where it is by [++]; whatever the number of iterations allowed, the loop
    has not ended. *)
Theorem Filter_end_over_Split_never_returns
    (p : string → bool) (delims : string) (chunks : list string) :
  p EmptyString = false →
  ∀ fuel,
    FilteredFlowFuel.flow_end fuel (Filter p (Split delims (AsDataFlow chunks))) =
    None.
Proof.
  intros Hp fuel. unfold FilteredFlowFuel.flow_end, FilteredFlowFuel.make, Filter.
  cbn [FilteredFlow.prev_ FilteredFlow.predicate_].
  apply (skip_unmatched_stuck _ p EmptyString); [| | |done].
  - apply Split_end_differs_from_itself.
  - apply Split_end_stays.
  - apply Split_end_deref.
Qed.

Lemma Filter_end_over_Split_never_returns_witness :
  FilteredFlowFuel.flow_end 1000
    (Filter (λ word, negb (String.eqb word EmptyString))
       (Split " " (AsDataFlow ["to be"%string]))) = None.
Proof.
  apply (Filter_end_over_Split_never_returns
           (λ word, negb (String.eqb word EmptyString)) " " ["to be"%string]).
  reflexivity.
Defined.

(** X13 (bin/main.cpp; processing.h, FilteredFlow::end).  The same holds
    with a [Transform] in between, when the predicate rejects the image of the
    empty string: the pipeline of main.cpp,
    [Split(...) | Transform(lower-case) | Filter(not empty) | AsVector()],
    is of this shape, and its range-for never gets its [end()]. *)
Theorem Filter_end_over_Transform_Split_never_returns {B}
    (f : string → B) (p : B → bool) (delims : string) (chunks : list string) :
  p (f EmptyString) = false →
  ∀ fuel,
    FilteredFlowFuel.flow_end fuel
      (Filter p (Transform f (Split delims (AsDataFlow chunks)))) = None.
Proof.
  intros Hp fuel. unfold FilteredFlowFuel.flow_end, FilteredFlowFuel.make, Filter.
  cbn [FilteredFlow.prev_ FilteredFlow.predicate_].
  apply (skip_unmatched_stuck _ p (f EmptyString)); [| | |done].
  - cbn [neq TransformedFlow.Iterator.iterator flow_end TransformedFlow.flow
         Transform TransformedFlow.prev_ TransformedFlow.Iterator.it_].
    apply Split_end_differs_from_itself.
  - cbn [incr TransformedFlow.Iterator.iterator flow_end TransformedFlow.flow
         Transform TransformedFlow.prev_ TransformedFlow.func_
         TransformedFlow.Iterator.it_ TransformedFlow.Iterator.func_].
    f_equal. apply Split_end_stays.
  - cbn [deref TransformedFlow.Iterator.iterator flow_end TransformedFlow.flow
         Transform TransformedFlow.prev_ TransformedFlow.func_
         TransformedFlow.Iterator.it_ TransformedFlow.Iterator.func_].
    by rewrite Split_end_deref.
Qed.

Lemma Filter_end_over_Transform_Split_never_returns_witness :
  FilteredFlowFuel.flow_end 1000
    (Filter (λ word, negb (String.eqb word EmptyString))
       (Transform (λ word : string, word)
          (Split " ,." (AsDataFlow ["to be, or not."%string])))) = None.
Proof.
  apply (Filter_end_over_Transform_Split_never_returns
           (λ word : string, word)
           (λ word, negb (String.eqb word EmptyString))).
  reflexivity.
Defined.

(** C5.  Materialising [Filter(p)] does not yield the elements of the
    materialised input that satisfy [p] for every input sequence: over a
    [Split], whose tokens do materialise (to the fields of the chunks), a
    predicate that rejects the empty string keeps [Filter]'s [end()] in the
    loop of [skip_unmatched], and [Filter(p) | AsVector()] returns nothing,
    whatever the number of turns its loops are allowed. *)
Theorem Filter_over_Split_never_materialises
    (p : string → bool) (delims : string) (chunks : list string) :
  chunks ≠ [] →
  Forall fits_size_t chunks →
  p EmptyString = false →
  materialises (Split delims (AsDataFlow chunks))
    (flat_map (fields delims) chunks) ∧
  ∀ fuel,
    FilteredFlowFuel.AsVector fuel (Filter p (Split delims (AsDataFlow chunks))) =
    None.
Proof.
  intros Hne Hfits Hp. split; [by apply materialises_Split|]. intros fuel.
  unfold FilteredFlowFuel.AsVector.
  assert (FilteredFlowFuel.flow_end fuel
            (Filter p (Split delims (AsDataFlow chunks))) = None) as ->.
  { unfold FilteredFlowFuel.flow_end, FilteredFlowFuel.make, Filter.
    cbn [FilteredFlow.prev_ FilteredFlow.predicate_].
    apply (skip_unmatched_stuck _ p EmptyString);
      [apply Split_end_differs_from_itself|apply Split_end_stays
      |apply Split_end_deref|done]. }
  by destruct (FilteredFlowFuel.flow_begin _ _).
Qed.

(** At the chunk [to be], split at the blank, and the predicate "not empty":
    the input materialises to [to; be], both words satisfy the predicate,
    and the filtered flow never materialises. *)
Lemma Filter_over_Split_never_materialises_witness :
  AsVector 3 (Split " " (AsDataFlow ["to be"%string])) =
    Some ["to"; "be"]%string ∧
  List.filter (λ word, negb (String.eqb word EmptyString))
    ["to"; "be"]%string = ["to"; "be"]%string ∧
  ∀ fuel,
    FilteredFlowFuel.AsVector fuel
      (Filter (λ word, negb (String.eqb word EmptyString))
         (Split " " (AsDataFlow ["to be"%string]))) = None.
Proof.
  split; [reflexivity|]. split; [reflexivity|].
  apply (Filter_over_Split_never_materialises
           (λ word, negb (String.eqb word EmptyString)) " " ["to be"%string]).
  - discriminate.
  - repeat constructor.
  - reflexivity.
Defined.

(** X14 (processing.h, FilteredFlow::Iterator::skip_unmatched).  Over a flow
    whose traversal from [current] reaches [end] after the elements [l], the
    loop of [skip_unmatched] is over after at most [length l] increments, at
    the iterator that the bounded reading of the loop gives. *)
Theorem Filter_skip_unmatched_returns {It A}
    `{!Iterator It A, !BoundedIterator It A}
    (p : A → bool) (cur e : It) (l : list A) :
  traverses cur e l →
  FilteredFlowFuel.make (S (length l)) cur e p =
  Some (FilteredFlow.Iterator.make cur e p).
Proof.
  unfold FilteredFlowFuel.make, FilteredFlow.Iterator.make,
    FilteredFlow.Iterator.skip_unmatched.
  cbn [FilteredFlow.Iterator.current_ FilteredFlow.Iterator.end_
       FilteredFlow.Iterator.predicate_].
  induction 1 as [cur e Hne | cur e x l Hne Hx Hl IH].
  - cbn [length FilteredFlowFuel.skip_unmatched FilteredFlow.Iterator.current_
         FilteredFlow.Iterator.end_ FilteredFlow.Iterator.predicate_].
    rewrite Hne. do 2 f_equal.
    destruct (distance cur e); simpl; [done|]. by rewrite Hne.
  - assert (S (length l) ≤ distance cur e) as Hd.
    { apply (distance_bound cur e (x :: l)). by apply traverses_step. }
    cbn [length].
    change (FilteredFlowFuel.skip_unmatched (S (S (length l)))
              (FilteredFlow.Iterator.mk cur e p))
      with (if neq cur e then
              match deref cur with
              | Some x =>
                  if p x then Some (FilteredFlow.Iterator.mk cur e p)
                  else FilteredFlowFuel.skip_unmatched (S (length l))
                         (FilteredFlow.Iterator.mk (incr cur) e p)
              | None => None
              end
            else Some (FilteredFlow.Iterator.mk cur e p)).
    rewrite Hne, Hx.
    destruct (distance cur e) as [|fuel] eqn:Hfuel; [lia|].
    cbn [FilteredFlow.Iterator.skip_loop]. rewrite Hne, Hx.
    destruct (p x) eqn:Hp; [done|].
    rewrite IH. do 2 f_equal.
    apply (skip_loop_fuel p _ _ _ Hl); [by apply distance_bound|lia].
Qed.

Lemma Filter_skip_unmatched_returns_witness :
  FilteredFlowFuel.make 4
    (VectorIterator.mk [1; 2; 3] 0) (VectorIterator.mk [1; 2; 3] 3) Nat.even =
  Some (FilteredFlow.Iterator.make
          (VectorIterator.mk [1; 2; 3] 0) (VectorIterator.mk [1; 2; 3] 3)
          Nat.even).
Proof.
  apply (Filter_skip_unmatched_returns Nat.even
           (VectorIterator.mk [1; 2; 3] 0) (VectorIterator.mk [1; 2; 3] 3)
           [1; 2; 3]).
  apply (vector_traverses_drop [1; 2; 3] 0). simpl. lia.
Defined.

(** ** Lazy adapters in sequence *)

Lemma Filter_flow_traverses {Prev It A}
    `{!Iterator It A, !BoundedIterator It A, !Flow Prev It A}
    (p : A → bool) (prev : Prev) (l : list A) :
  traverses (flow_begin prev) (flow_end prev) l →
  traverses (flow_begin (Filter p prev)) (flow_end (Filter p prev))
    (List.filter p l).
Proof.
  intros Hl. cbn [flow_begin flow_end FilteredFlow.flow Filter
                  FilteredFlow.prev_ FilteredFlow.predicate_].
  rewrite skip_unmatched_end. by apply Filter_traverses.
Qed.

Lemma filter_fmap_comm {A B} (f : A → B) (p : B → bool) (l : list A) :
  List.filter p (f <$> l) = f <$> List.filter (λ x, p (f x)) l.
Proof.
  induction l as [|x l IH]; [done|]. rewrite fmap_cons. cbn [List.filter].
  destruct (p (f x)); [rewrite fmap_cons|]; by rewrite IH.
Qed.





(** ** [Split] into [Write] *)

Lemma each_followed_by_fields (d : ascii) (s : string) :
  each_followed_by d (fields (String d EmptyString) s) =
  s +:+ String d EmptyString.
Proof.
  induction s as [|c s IH]; [done|]. cbn [fields].
  pose proof (fields_length (String d EmptyString) s) as Hlen.
  rewrite string_app_cons, <- IH. clear IH.
  cbn [StdString.contains].
  destruct (Ascii.eqb_spec c d) as [->|_]; [done|].
  destruct (fields (String d EmptyString) s) as [|t ts]; [done|].
  cbn [each_followed_by]. unfold inserted, string_insertable, id.
  by rewrite string_app_cons.
Qed.

(** X17 (processing.h, SplitFlow into WriteAdapter).  Splitting chunks at
    a character and writing the tokens with that character as separator
    writes what writing the chunks themselves writes: every chunk followed by
    the character. *)
Theorem Split_then_Write (d : ascii) (chunks toks : list string)
    (os_ : string) :
  chunks ≠ [] →
  Forall fits_size_t chunks →
  materialises (Split (String d EmptyString) (AsDataFlow chunks)) toks →
  (WriteAdapter os_ d toks).1 = (WriteAdapter os_ d chunks).1.
Proof.
  intros Hne Hfits ->%materialises_Split; [|done..].
  rewrite !WriteAdapter_spec. cbn [fst]. f_equal. clear Hne Hfits.
  induction chunks as [|c chunks IH]; [done|]. cbn [flat_map each_followed_by].
  rewrite each_followed_by_app, IH, each_followed_by_fields.
  unfold inserted, string_insertable, id.
  by rewrite string_app_assoc, string_app_cons, string_app_nil.
Qed.

Lemma Split_then_Write_witness :
  (WriteAdapter EmptyString "," ["a"; "b"; "c"]%string).1 =
  (WriteAdapter EmptyString "," ["a,b"; "c"]%string).1.
Proof.
  apply (Split_then_Write "," ["a,b"; "c"]%string).
  - discriminate.
  - repeat constructor.
  - exists 4. reflexivity.
Defined.

(** ** [AggregateByKey] *)

Lemma DataFlow_elements_inj {A} (d1 d2 : DataFlow (DataFlowSource A)) :
  elements d1 = elements d2 → d1 = d2.
Proof. destruct d1 as [[l1]], d2 as [[l2]]. unfold elements. simpl. by intros ->. Qed.

(** X18 (processing.h, AggregateByKeyAdapter::operator()).  The branch for
    strings, with its three loops, computes what the general branch, with its
    two, computes for the identity as key selector. *)
Theorem AggregateByKey_branches_agree {Acc KeySelector} `{!ValueInit Acc}
    (initial_value : Acc) (aggregator : Acc → string → Acc)
    (key_selector : KeySelector) (prev : list string) :
  AggregateByKeyAdapter.aggregate_strings
    (AggregateByKey initial_value aggregator key_selector) prev =
  AggregateByKeyAdapter.aggregate_by_selector
    (AggregateByKey initial_value aggregator (λ value : string, value)) prev.
Proof.
  apply DataFlow_elements_inj.
  rewrite aggregate_strings_spec, aggregate_by_selector_spec.
  cbn [AggregateByKey AggregateByKeyAdapter.aggregator_
       AggregateByKeyAdapter.initial_value_ AggregateByKeyAdapter.key_selector_].
  by rewrite list_fmap_id.
Qed.

(** X19 (processing.h, AggregateByKeyAdapter::operator()).  The value that
    [aggregated_map[key]] default-constructs for a new key is never seen:
    whatever that value is, both branches return the same flow. *)
Theorem AggregateByKey_default_value_unobserved :
  (∀ (Acc KeySelector : Type) (vi1 vi2 : ValueInit Acc)
      (adapter : AggregateByKeyAdapter.t Acc (Acc → string → Acc) KeySelector)
      (prev : list string),
     AggregateByKeyAdapter.aggregate_strings (ValueInit0 := vi1) adapter prev =
     AggregateByKeyAdapter.aggregate_strings (ValueInit0 := vi2) adapter prev) ∧
  (∀ (Acc A K : Type) (eq : EqDecision K) (cnt : Countable K)
      (vi1 vi2 : ValueInit Acc)
      (adapter : AggregateByKeyAdapter.t Acc (Acc → A → Acc) (A → K))
      (prev : list A),
     AggregateByKeyAdapter.aggregate_by_selector (ValueInit0 := vi1)
       adapter prev =
     AggregateByKeyAdapter.aggregate_by_selector (ValueInit0 := vi2)
       adapter prev).
Proof.
  split; intros; apply DataFlow_elements_inj.
  - by rewrite !aggregate_strings_spec.
  - by rewrite !aggregate_by_selector_spec.
Qed.

Section groups.
Context {A K : Type} `{EqDecision K}.
Implicit Types (key : A → K) (l : list A) (ks : list K).

Lemma group_absent key l (k : K) :
  k ∉ key <$> l → filter (λ v, key v = k) l = [].
Proof.
  induction l as [|x l IH]; [done|]. rewrite fmap_cons, not_elem_of_cons.
  intros [Hne Hk]. rewrite filter_cons_False by congruence. by apply IH.
Qed.

Lemma concat_take_out (G : K → list A) ks (k : K) :
  NoDup ks → (k ∈ ks ∨ G k = []) →
  concat (G <$> ks) ≡ₚ G k ++ concat (G <$> filter (λ k', k' ≠ k) ks).
Proof.
  induction ks as [|a ks IH]; intros Hnd Hk.
  - destruct Hk as [Hk | Hk]; [by apply elem_of_nil in Hk|by rewrite Hk].
  - apply NoDup_cons in Hnd as [Ha Hnd]. rewrite fmap_cons. cbn [concat].
    destruct (decide (a = k)) as [->|Hne].
    + rewrite filter_cons_False by tauto.
      assert (filter (λ k', k' ≠ k) ks = ks) as ->; [|done].
      clear IH Hk Hnd. induction ks as [|b ks IH]; [done|].
      apply not_elem_of_cons in Ha as [Hb Ha].
      rewrite filter_cons_True by congruence. by rewrite IH.
    + rewrite filter_cons_True by done. rewrite fmap_cons. cbn [concat].
      rewrite IH; [apply Permutation_app_swap_app|done|].
      destruct Hk as [Hk|Hk]; [|by right]. left.
      apply elem_of_cons in Hk as [Hk|Hk]; [congruence|done].
Qed.

(** The groups of the keys, in the order of the keys' first occurrence, hold
    every element once. *)
Lemma groups_partition key l :
  concat ((λ k, filter (λ v, key v = k) l) <$> first_occurrences (key <$> l))
  ≡ₚ l.
Proof.
  induction l as [|x l IH]; [done|].
  rewrite fmap_cons. cbn [first_occurrences]. rewrite fmap_cons. cbn [concat].
  rewrite filter_cons_True by done. cbn [app]. constructor.
  rewrite <- IH at 3.
  rewrite (concat_take_out (λ k, filter (λ v, key v = k) l)
             (first_occurrences (key <$> l)) (key x)).
  - apply Permutation_app_head. apply reflexive_eq. f_equal.
    apply list_fmap_ext. intros i k Hk.
    apply list_elem_of_lookup_2 in Hk. apply list_elem_of_filter in Hk as [Hk _].
    by rewrite filter_cons_False by congruence.
  - apply first_occurrences_NoDup.
  - destruct (decide (key x ∈ key <$> l)) as [Hin|Hnin].
    + left. by apply first_occurrences_elem_of.
    + right. by apply group_absent.
Qed.

Lemma fold_left_collect l (acc : list A) :
  fold_left (λ acc v, acc ++ [v]) l acc = acc ++ l.
Proof.
  revert acc. induction l as [|x l IH]; intros acc; simpl.
  - by rewrite app_nil_r.
  - by rewrite IH, <- app_assoc.
Qed.

Lemma sum_list_lengths (ls : list (list A)) :
  sum_list (length <$> ls) = length (concat ls).
Proof.
  induction ls as [|l ls IH]; [done|]. rewrite fmap_cons.
  cbn [sum_list sum_list_with concat]. by rewrite length_app, IH.
Qed.

End groups.

(** X20 (processing.h, AggregateByKeyAdapter::operator()).  The groups hold
    every input element exactly once: with the aggregator that collects the
    elements of a key, the collected groups together are a permutation of the
    input, and with the counting aggregator the counts add up to the size of
    the input. *)
Theorem AggregateByKey_groups_partition {A K} `{Countable K}
    (key_selector : A → K) (prev : list A) :
  (∀ vi : ValueInit (list A),
     concat
       (elements
          (AggregateByKeyAdapter.call (ValueInit0 := vi)
             AggregateByKeyAdapter.is_not_string
             (AggregateByKey [] (λ acc value, acc ++ [value]) key_selector)
             prev)).*2 ≡ₚ prev) ∧
  sum_list
    (elements
       (AggregateByKeyAdapter.call AggregateByKeyAdapter.is_not_string
          (AggregateByKey 0 (λ acc _, S acc) key_selector) prev)).*2 =
  length prev.
Proof.
  split.
  - intros vi. cbn [AggregateByKeyAdapter.call].
    rewrite aggregate_by_selector_spec.
    cbn [AggregateByKey AggregateByKeyAdapter.aggregator_
         AggregateByKeyAdapter.initial_value_
         AggregateByKeyAdapter.key_selector_].
    rewrite <- list_fmap_compose.
    rewrite <- (groups_partition key_selector prev) at 2.
    apply reflexive_eq. f_equal. apply list_fmap_ext. intros _ k _.
    cbn [compose snd]. by rewrite fold_left_collect.
  - cbn [AggregateByKeyAdapter.call].
    rewrite aggregate_by_selector_spec.
    cbn [AggregateByKey AggregateByKeyAdapter.aggregator_
         AggregateByKeyAdapter.initial_value_
         AggregateByKeyAdapter.key_selector_].
    rewrite <- list_fmap_compose.
    rewrite <- (Permutation_length (groups_partition key_selector prev)).
    rewrite <- sum_list_lengths, <- list_fmap_compose.
    f_equal. apply list_fmap_ext. intros _ k _.
    cbn [compose snd]. by rewrite fold_left_count.
Qed.

(** ** [Join] *)

Lemma filter_unique_key {X K} `{EqDecision K} (f : X → K) (l : list X) (k : K) :
  NoDup (f <$> l) → length (filter (λ x, f x = k) l) ≤ 1.
Proof.
  induction l as [|x l IH]; [simpl; lia|].
  rewrite fmap_cons, NoDup_cons. intros [Hx Hnd].
  destruct (decide (f x = k)) as [Hk|Hk].
  - rewrite filter_cons_True by done.
    rewrite (group_absent f l k) by by rewrite <- Hk. simpl. lia.
  - rewrite filter_cons_False by done. by apply IH.
Qed.

Lemma Permutation_at_most_one {X} (l1 l2 : list X) :
  l1 ≡ₚ l2 → length l2 ≤ 1 → l1 = l2.
Proof.
  intros Hperm Hlen. destruct l2 as [|x [|y l2]]; simpl in Hlen; [| |lia].
  - by apply Permutation_nil_r in Hperm.
  - by apply Permutation_singleton_r in Hperm.
Qed.

Lemma flat_map_singleton {X Y} (f : X → Y) (g : X → list Y) (l : list X) :
  (∀ x, g x = [f x]) → flat_map g l = f <$> l.
Proof.
  intros Hg. induction l as [|x l IH]; [done|].
  cbn [flat_map]. by rewrite Hg, IH.
Qed.

(** X21 (processing.h, JoinAdapter::operator()).  When no two right
    elements share a key, the selector-key form is the plain left join,
    whatever the container: one row per left element, in left order, each
    with the element itself as base and with its one match, or nothing, as
    joined value. *)
Theorem JoinBy_unique_right_keys {L R K} `{EqDecision K}
    {M : UnorderedMultimap K R} `{!Movable L}
    (adapter : JoinAdapter.t (list R) (L → K) (R → K)) (left : list L) :
  NoDup (JoinAdapter.right_key_ adapter <$> JoinAdapter.right_ adapter) →
  elements (JoinAdapter.call adapter left) =
  (λ l, mkJoinResult l (head (matches adapter l))) <$> left.
Proof.
  intros Hnd. rewrite JoinAdapter_flat_map. apply flat_map_singleton.
  intros l. rewrite rows_for_unfold.
  assert (equal_range (JoinAdapter.left_key_ adapter l)
            (JoinAdapter.build_right_map adapter) = matches adapter l) as ->.
  { apply Permutation_at_most_one; [apply build_right_map_equal_range|].
    by apply filter_unique_key. }
  pose proof (filter_unique_key (JoinAdapter.right_key_ adapter)
                (JoinAdapter.right_ adapter) (JoinAdapter.left_key_ adapter l)
                Hnd) as Hlen.
  fold (matches adapter l) in Hlen.
  destruct (matches adapter l) as [|r [|r' ms]]; simpl in Hlen; [done..|lia].
Qed.

Lemma JoinBy_unique_right_keys_witness :
  let adapter :=
    JoinBy (LeftKeySelector := Student.t → N)
      [Group.mk 1 "g"; Group.mk 2 "h"] Student.group_id Group.id in
  let left := [Student.mk 2 "a"; Student.mk 3 "b"; Student.mk 2 "c"] in
  NoDup (JoinAdapter.right_key_ adapter <$> JoinAdapter.right_ adapter) ∧
  elements (JoinAdapter.call (M := newest_first_multimap) adapter left) =
  (λ l, mkJoinResult l (head (matches adapter l))) <$> left.
Proof.
  intros adapter left.
  assert (NoDup (JoinAdapter.right_key_ adapter <$> JoinAdapter.right_ adapter))
    as Hnd.
  { apply (bool_decide_unpack _). by vm_compute. }
  split; [exact Hnd|].
  exact (JoinBy_unique_right_keys (M := newest_first_multimap) adapter left Hnd).
Defined.

(** X22 (processing.h, SimpleJoinAdapter::operator()).  The same for the
    paired form: with distinct keys on the right, one row per left pair, in
    left order, with the value of the pair and the value of its one match, or
    nothing. *)
Theorem Join_unique_right_keys {K LV RV} `{EqDecision K}
    {M : UnorderedMultimap K RV}
    (adapter : SimpleJoinAdapter.t (list (KV K RV))) (left : list (KV K LV)) :
  NoDup (key <$> SimpleJoinAdapter.right_ adapter) →
  elements (SimpleJoinAdapter.call adapter left) =
  (λ l, mkJoinResult (value l) (head (paired_matches adapter l))) <$> left.
Proof.
  intros Hnd. rewrite SimpleJoinAdapter_flat_map. apply flat_map_singleton.
  intros l. rewrite paired_rows_for_unfold.
  pose proof (filter_unique_key key (SimpleJoinAdapter.right_ adapter) (key l)
                Hnd) as Hlen.
  assert (equal_range (key l) (SimpleJoinAdapter.build_right_map adapter) =
          paired_matches adapter l) as ->.
  { apply Permutation_at_most_one;
      [apply paired_build_right_map_equal_range|].
    unfold paired_matches. by rewrite length_fmap. }
  unfold paired_matches.
  destruct (filter _ _) as [|r [|r' ms]]; simpl in Hlen; [done..|lia].
Qed.

Lemma Join_unique_right_keys_witness :
  let adapter := Join [mkKV 1%Z "g"%string; mkKV 2%Z "h"%string] in
  let left := [mkKV 2%Z "a"%string; mkKV 3%Z "b"%string] in
  NoDup (key <$> SimpleJoinAdapter.right_ adapter) ∧
  elements (SimpleJoinAdapter.call (M := oldest_first_multimap) adapter left) =
  (λ l, mkJoinResult (value l) (head (paired_matches adapter l))) <$> left.
Proof.
  intros adapter left.
  assert (NoDup (key <$> SimpleJoinAdapter.right_ adapter)) as Hnd.
  { apply (bool_decide_unpack _). by vm_compute. }
  split; [exact Hnd|].
  exact (Join_unique_right_keys (M := oldest_first_multimap) adapter left Hnd).
Defined.

Lemma moved_rows_bases {L R} `{!Movable L} (l : L) (range : list R) :
  base <$> moved_rows l range =
  (λ n, Nat.iter n moved_from l) <$> seq 0 (length range).
Proof.
  revert l. induction range as [|it range IH]; intros l; [done|].
  cbn [moved_rows length seq]. rewrite !fmap_cons. cbn [base Nat.iter].
  f_equal. rewrite IH, <- seq_shift.
  change (map S (seq 0 (length range))) with (S <$> seq 0 (length range)).
  rewrite <- list_fmap_compose. apply list_fmap_ext. intros _ n _.
  cbn [compose]. by rewrite Nat.iter_succ_r.
Qed.

(** X23 (processing.h, JoinAdapter::operator()).  What the bases of the
    selector-key form are, for every container: the [n]-th row of a left
    element (counting from 0) carries the element after [n] moves, since the
    inner loop moves from the same [left_value] once per match.  A left
    element with at most one match is carried as it is; so is every left
    element of a type whose move is a copy. *)
Theorem JoinBy_bases_after_moves {L R K} `{EqDecision K}
    {M : UnorderedMultimap K R} `{!Movable L}
    (adapter : JoinAdapter.t (list R) (L → K) (R → K)) (left : list L) :
  base <$> elements (JoinAdapter.call adapter left) =
  flat_map
    (λ l, (λ n, Nat.iter n moved_from l) <$>
            seq 0 (length (matches adapter l) `max` 1))
    left.
Proof.
  rewrite JoinAdapter_flat_map.
  induction left as [|l left IH]; [done|]. cbn [flat_map].
  rewrite fmap_app, IH. f_equal.
  rewrite <- rows_for_length, rows_for_unfold.
  destruct (equal_range _ _) as [|it range]; [done|].
  rewrite moved_rows_bases. do 2 f_equal.
  by rewrite <- (length_fmap joined), moved_rows_joined, length_fmap.
Qed.

(** X24 (processing.h, SimpleJoinAdapter::operator()).  The paired form
    copies [left_value.value] into every row: for every container, the bases
    of the result are the values of the left pairs, in left order, each
    repeated once per match and once when there is no match; the result has
    as many rows. *)
Theorem Join_bases_are_left_values {K LV RV} `{EqDecision K}
    {M : UnorderedMultimap K RV}
    (adapter : SimpleJoinAdapter.t (list (KV K RV))) (left : list (KV K LV)) :
  base <$> elements (SimpleJoinAdapter.call adapter left) =
    flat_map
      (λ l, replicate (length (paired_matches adapter l) `max` 1) (value l))
      left ∧
  length (elements (SimpleJoinAdapter.call adapter left)) =
    sum_list ((λ l, length (paired_matches adapter l) `max` 1) <$> left).
Proof.
  rewrite SimpleJoinAdapter_flat_map. split.
  - induction left as [|l left IH]; [done|]. cbn [flat_map].
    by rewrite fmap_app, IH, paired_rows_for_base.
  - rewrite flat_map_length. f_equal.
    apply list_fmap_ext. intros _ l _. apply paired_rows_for_length.
Qed.

(** ** [Filter] over a flow that need not be bounded *)

Section filter_any_flow.
Context {It A : Type} `{!Iterator It A}.
Implicit Types (p : A → bool) (cur e : It) (l : list A).

Lemma skip_unmatched_settles p cur e l (fuel : nat) :
  traverses cur e l → length l < fuel →
  ∃ cur' l',
    FilteredFlowFuel.skip_unmatched fuel (FilteredFlow.Iterator.mk cur e p) =
      Some (FilteredFlow.Iterator.mk cur' e p) ∧
    traverses cur' e l' ∧ settled p l' ∧
    List.filter p l' = List.filter p l ∧ length l' ≤ length l.
Proof.
  intros Hl. revert fuel.
  induction Hl as [cur e Hne | cur e x l Hne Hx Hl IH]; intros [|fuel] Hlen;
    simpl in Hlen; try lia;
    cbn [FilteredFlowFuel.skip_unmatched FilteredFlow.Iterator.current_
         FilteredFlow.Iterator.end_ FilteredFlow.Iterator.predicate_];
    rewrite Hne.
  - exists cur, []. split; [done|]. split; [by apply traverses_end|done].
  - rewrite Hx. destruct (p x) eqn:Hp.
    + exists cur, (x :: l). split; [done|].
      split; [by apply traverses_step|done].
    + destruct (IH fuel) as (cur' & l' & Hskip & Hl' & Hset & Hfil & Hle);
        [lia|].
      exists cur', l'. split; [done|]. split; [done|]. split; [done|].
      cbn [List.filter length]. rewrite Hp. split; [done|lia].
Qed.

Lemma Filter_drain p e (fuel : nat) :
  ∀ cur l (result : list A),
    traverses cur e l → settled p l → length l < fuel →
    FilteredFlowFuel.drain fuel (FilteredFlow.Iterator.mk cur e p)
      (FilteredFlow.Iterator.mk e e p) result =
    Some (result ++ List.filter p l).
Proof.
  induction fuel as [|fuel IH]; intros cur l result Hl Hset Hlen; [lia|].
  cbn [FilteredFlowFuel.drain FilteredFlow.Iterator.current_
       FilteredFlow.Iterator.end_ FilteredFlow.Iterator.predicate_].
  inversion Hl as [cur0 e0 Hne | cur0 e0 x l0 Hne Hx Hl0]; subst.
  - rewrite Hne. by rewrite app_nil_r.
  - rewrite Hne, Hx. simpl in Hset, Hlen.
    destruct (skip_unmatched_settles p (incr cur) e l0 (S fuel) Hl0)
      as (cur' & l' & -> & Hl' & Hset' & Hfil & Hle); [lia|].
    rewrite (IH cur' l' (result ++ [x]) Hl' Hset') by lia.
    cbn [List.filter]. by rewrite Hset, Hfil, <- app_assoc.
Qed.

End filter_any_flow.

(** X25 (processing.h, FilteredFlow).  [Filter] over a flow of any kind:
    when the flow below materialises to [l], and its end iterator either
    equals itself or holds an element the predicate accepts, then
    [Filter(p) | AsVector()] returns, with the elements of [l] that satisfy
    [p], in order. *)
Theorem Filter_over_any_flow {Prev It A} `{!Iterator It A, !Flow Prev It A}
    (p : A → bool) (prev : Prev) (fuel : nat) (l : list A) :
  AsVector fuel prev = Some l →
  neq (flow_end prev) (flow_end prev) = false ∨
    (∃ x, deref (flow_end prev) = Some x ∧ p x = true) →
  FilteredFlowFuel.AsVector fuel (Filter p prev) = Some (List.filter p l).
Proof.
  intros [Hl Hlen]%AsVector_traverses Hend.
  unfold FilteredFlowFuel.AsVector, FilteredFlowFuel.flow_begin,
    FilteredFlowFuel.flow_end, FilteredFlowFuel.make, Filter.
  cbn [FilteredFlow.prev_ FilteredFlow.predicate_].
  destruct (skip_unmatched_settles p _ _ l fuel Hl Hlen)
    as (cur' & l' & -> & Hl' & Hset & Hfil & Hle).
  assert (FilteredFlowFuel.skip_unmatched fuel
            (FilteredFlow.Iterator.mk (flow_end prev) (flow_end prev) p) =
          Some (FilteredFlow.Iterator.mk (flow_end prev) (flow_end prev) p))
    as ->.
  { destruct fuel as [|fuel]; [lia|].
    cbn [FilteredFlowFuel.skip_unmatched FilteredFlow.Iterator.current_
         FilteredFlow.Iterator.end_ FilteredFlow.Iterator.predicate_].
    destruct Hend as [-> | (x & -> & ->)]; [done|].
    by destruct (neq _ _). }
  rewrite (Filter_drain p _ fuel cur' l' [] Hl' Hset) by lia.
  by rewrite Hfil.
Qed.

Lemma Filter_over_any_flow_witness :
  FilteredFlowFuel.AsVector 4 (Filter Nat.even (AsDataFlow [1; 2; 3])) =
  Some (List.filter Nat.even [1; 2; 3]).
Proof.
  apply (Filter_over_any_flow Nat.even (AsDataFlow [1; 2; 3]) 4 [1; 2; 3]).
  - reflexivity.
  - left. reflexivity.
Defined.

(** X26 (processing.h, FilteredFlow over SplitFlow).  [Filter] over
    [Split] needs a predicate that accepts the empty string: then
    [Split(delims) | Filter(p) | AsVector()] returns the fields of the chunks
    that satisfy [p], in order. *)
Theorem Filter_over_Split (p : string → bool) (delims : string)
    (chunks : list string) :
  chunks ≠ [] →
  Forall fits_size_t chunks →
  p EmptyString = true →
  ∃ fuel,
    FilteredFlowFuel.AsVector fuel (Filter p (Split delims (AsDataFlow chunks))) =
    Some (List.filter p (flat_map (fields delims) chunks)).
Proof.
  intros Hne Hfits Hp.
  assert (materialises (Split delims (AsDataFlow chunks))
            (flat_map (fields delims) chunks)) as [fuel Hfuel].
  { by apply materialises_Split. }
  exists fuel. apply Filter_over_any_flow; [done|].
  right. exists EmptyString. split; [apply Split_end_deref|done].
Qed.

Lemma Filter_over_Split_witness :
  ∃ fuel,
    FilteredFlowFuel.AsVector fuel
      (Filter (λ word, String.eqb word EmptyString || String.eqb word "b")
         (Split "," (AsDataFlow ["a,,b"; "c,b"]%string))) =
    Some (List.filter (λ word, String.eqb word EmptyString || String.eqb word "b")
            (flat_map (fields ",") ["a,,b"; "c,b"]%string)).
Proof.
  apply (Filter_over_Split
           (λ word, String.eqb word EmptyString || String.eqb word "b") ","
           ["a,,b"; "c,b"]%string).
  - discriminate.
  - repeat constructor.
  - reflexivity.
Defined.
